(** * MangadexLoadChapter: the userscript [mangadex_load_chapter.js]

    A shallow embedding of the script's queue ([runJob]), resolver
    ([fetchLatestChapter]), card logic ([applyVisibility], [tryFillBadge],
    [enhanceCard]) and of the few JavaScript built-ins they rely on,
    followed by the properties of the specification. *)

From Stdlib Require Import ZArith QArith String Ascii DecimalString Lia.
From stdpp Require Import base option list gmap.

Open Scope string_scope.
Open Scope list_scope.
Open Scope Z_scope.

(** ** JavaScript values and built-ins *)

Module JS.

(** The values that can sit in the [chapter] field of a parsed response, or
    be handed around by the script.  Strings are sequences of code units in
    the range 0..255.  [VNum] holds an integral number; [VObj] stands for an
    array or object, which the script only ever converts to a string, and is
    carried with the result of that conversion. *)
Inductive value : Type :=
| VUndefined
| VNull
| VBool (b : bool)
| VNum (n : Z)
| VStr (s : string)
| VObj (str : string).

(** [String(v)] *)
Definition to_string (v : value) : string :=
  match v with
  | VUndefined => "undefined"
  | VNull => "null"
  | VBool true => "true"
  | VBool false => "false"
  | VNum n => NilZero.string_of_int (Z.to_int n)
  | VStr s => s
  | VObj str => str
  end.

(** [v == null] *)
Definition is_nullish (v : value) : bool :=
  match v with
  | VUndefined | VNull => true
  | _ => false
  end.

(** [a ?? b] *)
Definition nullish_or (a b : value) : value :=
  if is_nullish a then b else a.

(** [v === s] for a string literal [s] *)
Definition strict_eq_str (v : value) (s : string) : bool :=
  match v with
  | VStr t => String.eqb t s
  | _ => false
  end.

(** [!!v] *)
Definition truthy (v : value) : bool :=
  match v with
  | VUndefined | VNull => false
  | VBool b => b
  | VNum n => negb (n =? 0)
  | VStr s => negb (String.eqb s "")
  | VObj _ => true
  end.

(** *** Characters *)

Definition code (c : ascii) : Z := Z.of_N (N_of_ascii c).

(** White space and line terminators, the class [\s] of a regular
    expression and the characters [parseFloat] skips. *)
Definition is_space (c : ascii) : bool :=
  let n := code c in
  (9 <=? n) && (n <=? 13) || (n =? 32) || (n =? 160).

Definition is_digit (c : ascii) : bool :=
  let n := code c in (48 <=? n) && (n <=? 57).

Definition digit_val (c : ascii) : Z := code c - 48.

Definition to_upper (c : ascii) : ascii :=
  let n := code c in
  if (97 <=? n) && (n <=? 122) then ascii_of_N (Z.to_N (n - 32)) else c.

(** *** Regular expressions

    Only what the script's two literals need: a sequence of one-character
    items, each mandatory or optional ([?]), searched at every offset. *)

Inductive item : Type :=
| One (p : ascii -> bool)
| Opt (p : ascii -> bool).

(** a literal letter under the [i] flag *)
Definition ci (l : ascii) : ascii -> bool :=
  fun c => Ascii.eqb (to_upper c) (to_upper l).

Definition eat (p : ascii -> bool) (k : string -> bool) (s : string) : bool :=
  match s with
  | String c s' => p c && k s'
  | EmptyString => false
  end.

Fixpoint match_here (r : list item) (s : string) : bool :=
  match r with
  | [] => true
  | One p :: r' => eat p (match_here r') s
  | Opt p :: r' => eat p (match_here r') s || match_here r' s
  end.

(** [r.test(s)] *)
Fixpoint regex_test (r : list item) (s : string) : bool :=
  match_here r s ||
  match s with
  | String _ s' => regex_test r s'
  | EmptyString => false
  end.

(** *** Numbers and [parseFloat] *)

(** Numbers as [parseFloat] produces them.  Finite values are kept as exact
    rationals: rounding to a double and overflow are not modelled. *)
Inductive number : Type :=
| NaN
| NegInf
| Fin (q : Q)
| PosInf.

Definition isNaN (x : number) : bool :=
  match x with NaN => true | _ => false end.

Definition Qlt_bool (a b : Q) : bool := negb (Qle_bool b a).

(** [x < y]; false as soon as one side is NaN *)
Definition lt (x y : number) : bool :=
  match x, y with
  | NaN, _ | _, NaN => false
  | _, NegInf => false
  | NegInf, _ => true
  | PosInf, _ => false
  | Fin _, PosInf => true
  | Fin a, Fin b => Qlt_bool a b
  end.

(** [x > y] *)
Definition gt (x y : number) : bool := lt y x.

Definition zero : number := Fin 0.

Fixpoint skip_space (s : string) : string :=
  match s with
  | String c s' => if is_space c then skip_space s' else s
  | EmptyString => s
  end.

(** A run of decimal digits: its value after [acc], its length, the rest. *)
Fixpoint digits (s : string) (acc : Z) (len : nat) : Z * nat * string :=
  match s with
  | String c s' =>
      if is_digit c then digits s' (10 * acc + digit_val c) (S len)
      else (acc, len, s)
  | EmptyString => (acc, len, s)
  end.

(** The optional sign in front of a literal or of an exponent. *)
Definition sign (s : string) : Z * string :=
  match s with
  | String "-" s' => (-1, s')
  | String "+" s' => (1, s')
  | _ => (1, s)
  end.

(** The exponent part, 0 when there is none or when it has no digit. *)
Definition exponent (s : string) : Z :=
  match s with
  | String c s' =>
      if ci "e" c then
        let '(sg, s'') := sign s' in
        let '(e, n, _) := digits s'' 0 0%nat in
        match n with O => 0 | S _ => sg * e end
      else 0
  | EmptyString => 0
  end.

Definition pow10 (e : Z) : Q := Qpower (10 # 1) e.

(** [parseFloat(s)]: the longest prefix of [s], after leading white space,
    that is a decimal literal. *)
Definition parseFloat (s : string) : number :=
  let '(sg, s1) := sign (skip_space s) in
  if String.prefix "Infinity" s1 then (if sg =? 1 then PosInf else NegInf)
  else
    let '(i, ni, s2) := digits s1 0 0%nat in
    let '(f, nf, s3) :=
      match s2 with
      | String "." s2' => digits s2' 0 0%nat
      | _ => (0, 0%nat, s2)
      end in
    match (ni + nf)%nat with
    | O => NaN
    | S _ =>
        Fin (inject_Z sg * (inject_Z i + inject_Z f * pow10 (- Z.of_nat nf))
             * pow10 (exponent s3))
    end.

End JS.

Import JS.

(** ** Lightweight async-queue *)

Module Runner.

Definition CONCURRENCY_LIMIT : Z := 6.

(** How a call [j()] ends: the promise it returns is fulfilled with a value,
    or it is rejected (or [j] throws). *)
Inductive outcome : Type :=
| Returned (v : value)
| Thrown.

(** A settled promise, as [await] sees it. *)
Inductive settled : Type :=
| Fulfilled (v : value)
| Rejected.

(** [try { res(await j()); } catch (e) { res(null); }]: what [res] is called
    with, hence how the promise returned by [runJob] settles. *)
Definition settlement (o : outcome) : settled :=
  match o with
  | Returned v => Fulfilled v
  | Thrown => Fulfilled VNull
  end.

Section Queue.

(** The jobs, each one invocation of a zero-argument async function, and the
    way each of them ends once it is called. *)
Context {J : Type}.
Variable result : J -> outcome.

(** [{ job, resolve }]; [resolve] is named by the index of the call of
    [runJob] whose promise it settles. *)
Record entry : Type := Entry { job : J; resolve : nat }.

(** Where the body of one call of [runJob] stands. *)
Inductive task : Type :=
| Waiting              (* suspended in [await sleep(50)] *)
| Running (e : entry)  (* suspended in [await j()], after [active++] *)
| Finished             (* past [finally] *)
| Crashed.             (* [queue.shift()] gave [undefined] *)

Record state : Type := State {
  queue : list entry;
  active : Z;
  tasks : list task;               (* one per call of [runJob], in call order *)
  promises : list (option settled) (* the promise each call returned *)
}.

Definition init : state :=
  {| queue := []; active := 0; tasks := []; promises := [] |}.

(** What the event loop can do next. *)
Inductive event : Type :=
| Submit (j : J)   (* [runJob(j)] is called *)
| Wake (i : nat)   (* the timer of waiting call [i] fires *)
| Settle (i : nat) (* the job awaited by call [i] settles *).

(** Lines 47 to 50 for call [i], run without interruption: the loop test,
    then either another [sleep] or [shift], [active++] and the call [j()]. *)
Definition enter (i : nat) (s : state) : state :=
  if CONCURRENCY_LIMIT <=? active s then
    {| queue := queue s; active := active s;
       tasks := <[i := Waiting]> (tasks s); promises := promises s |}
  else
    match queue s with
    | [] =>
        {| queue := []; active := active s;
           tasks := <[i := Crashed]> (tasks s); promises := promises s |}
    | e :: q =>
        {| queue := q; active := active s + 1;
           tasks := <[i := Running e]> (tasks s); promises := promises s |}
    end.

(** [res(x)]: settles promise [p] unless it is settled already. *)
Definition settle (p : nat) (x : settled) (ps : list (option settled))
  : list (option settled) :=
  match ps !! p with
  | Some None => <[p := Some x]> ps
  | _ => ps
  end.

Definition step (s : state) (ev : event) : state :=
  match ev with
  | Submit j =>
      let p := length (tasks s) in
      enter p
        {| queue := queue s ++ [{| job := j; resolve := p |}];
           active := active s;
           tasks := tasks s ++ [Waiting];
           promises := promises s ++ [None] |}
  | Wake i =>
      match tasks s !! i with
      | Some Waiting => enter i s
      | _ => s
      end
  | Settle i =>
      match tasks s !! i with
      | Some (Running e) =>
          {| queue := queue s;
             active := active s - 1;
             tasks := <[i := Finished]> (tasks s);
             promises :=
               settle (resolve e) (settlement (result (job e))) (promises s) |}
      | _ => s
      end
  end.

Definition run (evs : list event) : state := fold_left step evs init.

(** The entries whose job is executing. *)
Definition running_entry (t : task) : option entry :=
  match t with
  | Running e => Some e
  | _ => None
  end.

Definition running (ts : list task) : list entry := omap running_entry ts.

Definition is_waiting (t : task) : bool :=
  match t with
  | Waiting => true
  | _ => false
  end.

Definition waiting (ts : list task) : nat := length (filter is_waiting ts).

(** The jobs handed to [runJob], in call order: call [k] submitted the
    [k]-th of them. *)
Definition submitted_job (ev : event) : option J :=
  match ev with
  | Submit j => Some j
  | _ => None
  end.

Definition submitted (evs : list event) : list J := omap submitted_job evs.

End Queue.

Arguments entry : clear implicits.
Arguments task : clear implicits.
Arguments state : clear implicits.
Arguments event : clear implicits.

End Runner.

(** ** API helper *)

Module Resolver.

Import Runner.

Definition SHORT_RETRY_BASE : Z := 2000.
Definition SHORT_RETRY_COUNT : nat := 10.

(** The body of a response with status 200: either [JSON.parse] or the walk
    to the field throws, or [j.data?.[0]?.attributes?.chapter] evaluates to
    [chap] ([VUndefined] when a link of the chain is missing). *)
Inductive body : Type :=
| Unparseable
| Chapter (chap : value).

(** What [GM_xmlhttpRequest] reports for one request. *)
Inductive response : Type :=
| OnLoad (status : Z) (b : body)
| OnError
| OnTimeout
| OnAbort.

(** [/one[\s-]?shot/i] *)
Definition one_shot : list item :=
  [ One (ci "o"); One (ci "n"); One (ci "e");
    Opt (fun c => is_space c || Ascii.eqb c "-");
    One (ci "s"); One (ci "h"); One (ci "o"); One (ci "t") ].

(** Lines 83 to 88: the one-shot handling. *)
Definition normalize (chap : value) : value :=
  if is_nullish chap || regex_test one_shot (to_string chap)
  then VStr "1"
  else chap.

(** One request: how the promise made by [doRequest] settles. *)
Definition doRequest (r : response) : outcome :=
  match r with
  | OnLoad status b =>
      if negb (status =? 200) then Thrown
      else
        match b with
        | Unparseable => Thrown
        | Chapter chap => Returned (nullish_or (normalize chap) (VStr "?"))
        end
  | OnError | OnTimeout | OnAbort => Thrown
  end.

(** What one call of [fetchLatestChapter] does, in order. *)
Inductive event : Type :=
| Attempt (a : nat)  (* [runJob(doRequest)] with loop index [a] *)
| Sleep (ms : Z).

(** The loop of lines 99 to 103, [n] iterations from index [a]; [net a] is
    the answer to the request made at index [a].  The promise of [runJob]
    settles as [settlement] says. *)
Fixpoint attempts (n a : nat) (net : nat -> response) : value * list event :=
  match n with
  | O => (VStr "?", [])
  | S n' =>
      match settlement (doRequest (net a)) with
      | Fulfilled v => (v, [Attempt a])
      | Rejected =>
          let '(v, tr) := attempts n' (S a) net in
          (v, Attempt a :: Sleep (SHORT_RETRY_BASE * 2 ^ Z.of_nat a) :: tr)
      end
  end.

Definition fetchLatestChapter (net : nat -> response) : value * list event :=
  attempts SHORT_RETRY_COUNT 0 net.

Definition is_attempt (e : event) : bool :=
  match e with
  | Attempt _ => true
  | Sleep _ => false
  end.

Definition attempt_count (tr : list event) : nat :=
  length (filter is_attempt tr).

End Resolver.

(** ** Card logic *)

Module Cards.

Definition LONG_RETRY_BASE : Z := 5000.
Definition LONG_RETRY_MAX : nat := 6.

(** What the script reads and writes of one [.manga-card]. *)
Record card : Type := Card {
  title_badge : bool;     (* a stale badge sits inside [a.title] *)
  has_cover : bool;       (* there is a [.manga-card-cover] *)
  cover_position : string;(* [cover.style.position] *)
  badge : option string;  (* [textContent] of the cover's badge, if any *)
  href : option string;   (* [href] of the first link to a title, if any *)
  chap : value;           (* [card.dataset.chap], [VUndefined] when unset *)
  display : string;       (* [card.style.display] *)
  timer : option Z        (* delay of the last timer put in [card._mdexTimer] *)
}.

Definition set_badge (t : string) (c : card) : card :=
  {| title_badge := title_badge c; has_cover := has_cover c;
     cover_position := cover_position c; badge := Some t; href := href c;
     chap := chap c; display := display c; timer := timer c |}.

Definition set_chap (v : value) (c : card) : card :=
  {| title_badge := title_badge c; has_cover := has_cover c;
     cover_position := cover_position c; badge := badge c; href := href c;
     chap := VStr (to_string v); display := display c; timer := timer c |}.

Definition set_cover_position (p : string) (c : card) : card :=
  {| title_badge := title_badge c; has_cover := has_cover c;
     cover_position := p; badge := badge c; href := href c;
     chap := chap c; display := display c; timer := timer c |}.

Definition remove_title_badge (c : card) : card :=
  {| title_badge := false; has_cover := has_cover c;
     cover_position := cover_position c; badge := badge c; href := href c;
     chap := chap c; display := display c; timer := timer c |}.

Definition set_display (d : string) (c : card) : card :=
  {| title_badge := title_badge c; has_cover := has_cover c;
     cover_position := cover_position c; badge := badge c; href := href c;
     chap := chap c; display := d; timer := timer c |}.

Definition set_timer (delay : Z) (c : card) : card :=
  {| title_badge := title_badge c; has_cover := has_cover c;
     cover_position := cover_position c; badge := badge c; href := href c;
     chap := chap c; display := display c; timer := Some delay |}.

Definition applyVisibility (minChapters : number) (c : card) : card :=
  let n := parseFloat (to_string (chap c)) in
  set_display
    (if negb (isNaN n) && gt minChapters zero && lt n minChapters
     then "none" else "")
    c.

(** What surrounds one card while the script works on it: whether the page
    still contains the card when the step with a given [longTry] starts,
    what [fetchLatestChapter] returns in that step, and the threshold in
    force when it returns. *)
Record env : Type := Env {
  contains : nat -> bool;
  fetched : nat -> value;
  minChapters : nat -> number
}.

Inductive event : Type :=
| Resolve (mangaId : string) (longTry : nat)  (* [fetchLatestChapter] is called *)
| SetTimeout (delay : Z) (longTry : nat).     (* re-entry with [longTry] is scheduled *)

Definition ELLIPSIS : string := "…".

(** [tryFillBadge] and the re-entries its timers cause, each of which
    consumes one unit of [fuel]. *)
Fixpoint tryFillBadge (fuel : nat) (E : env) (c : card) (mangaId : string)
    (longTry : nat) : option (card * list event) :=
  match fuel with
  | O => None
  | S fuel' =>
      if negb (contains E longTry) then Some (c, [])
      else
        let chap := fetched E longTry in
        if negb (strict_eq_str chap "?") && negb (is_nullish chap) then
          Some (applyVisibility (minChapters E longTry)
                  (set_chap chap (set_badge (to_string chap) c)),
                [Resolve mangaId longTry])
        else if (longTry <? LONG_RETRY_MAX)%nat then
          let delay := LONG_RETRY_BASE * 2 ^ Z.of_nat longTry in
          let c' := set_timer delay (set_chap (VStr "") (set_badge ELLIPSIS c)) in
          match tryFillBadge fuel' E c' mangaId (S longTry) with
          | Some (c'', tr) =>
              Some (c'', Resolve mangaId longTry :: SetTimeout delay (S longTry) :: tr)
          | None => None
          end
        else
          Some (set_chap (VStr "") (set_badge "?" c), [Resolve mangaId longTry])
  end.

(** [s.split(sep)] for a one-character separator *)
Fixpoint split (sep : ascii) (s : string) : list string :=
  match s with
  | EmptyString => [""]
  | String c s' =>
      let r := split sep s' in
      if Ascii.eqb c sep then "" :: r
      else
        match r with
        | w :: r' => String c w :: r'
        | [] => [String c ""]
        end
  end.

(** Lines 161 to 164; [VUndefined] when a link of the chain is missing. *)
Definition mangaId (c : card) : value :=
  match href c with
  | None => VUndefined
  | Some h =>
      match split "/" h !! 2%nat with
      | None => VUndefined
      | Some w => VStr w
      end
  end.

(** [enhanceCard] on the card with handle [h], together with the session it
    starts; [processed] is the [WeakSet] of the handles seen so far. *)
Definition enhanceCard (fuel : nat) (E : env) (processed : gset nat)
    (h : nat) (c : card) : option (gset nat * card * list event) :=
  if decide (h ∈ processed) then Some (processed, c, [])
  else
    let processed := {[h]} ∪ processed in
    let c := remove_title_badge c in
    if negb (has_cover c) then Some (processed, c, [])
    else
      let c := set_badge ELLIPSIS (set_cover_position "relative" c) in
      let id := mangaId c in
      if negb (truthy id) then Some (processed, set_badge "?" c, [])
      else
        match tryFillBadge fuel E c (to_string id) 0 with
        | Some (c', tr) => Some (processed, c', tr)
        | None => None
        end.

End Cards.

(** ** Vocabulary of the specification *)

Import Runner Resolver Cards.

Fixpoint upcase (s : string) : string :=
  match s with
  | EmptyString => EmptyString
  | String c s' => String (to_upper c) (upcase s')
  end.

(** Nothing, or one character that is white space or a hyphen. *)
Definition separator (sep : string) : Prop :=
  sep = "" \/ exists c, sep = String c "" /\ (is_space c = true \/ c = "-"%char).

(** The one-shot pattern in the specification's words: somewhere in the
    string, the letters of "one", then at most one separator, then the
    letters of "shot", in either case. *)
Definition one_shot_form (s : string) : Prop :=
  exists pre a sep b post,
    s = (pre ++ a ++ sep ++ b ++ post)%string /\
    upcase a = "ONE" /\ separator sep /\ upcase b = "SHOT".

(** A card is hidden when its [display] is ["none"]. *)
Definition hidden (c : card) : Prop := display c = "none".

(** The chapter of the card reads as a number, and that number is below
    [N]. *)
Definition numeric_below (N : number) (c : card) : Prop :=
  isNaN (parseFloat (to_string (chap c))) = false /\
  lt (parseFloat (to_string (chap c))) N = true.

(** [dataset.chap] of a card that is pending or unknown: never written, or
    reset to the empty string by lines 132 and 138. *)
Definition unresolved (c : card) : Prop :=
  chap c = VUndefined \/ chap c = VStr "".

(** A card as the page delivers it. *)
Definition fresh_card (cover : bool) (link : option string) : card :=
  {| title_badge := false; has_cover := cover; cover_position := "";
     badge := None; href := link; chap := VUndefined; display := "";
     timer := None |}.

(** The delays of the timers of a session, and the steps in which the
    resolver was called. *)
Definition delay_of (e : Cards.event) : option Z :=
  match e with
  | SetTimeout d _ => Some d
  | Resolve _ _ => None
  end.

Definition resolve_of (e : Cards.event) : option nat :=
  match e with
  | Resolve _ k => Some k
  | SetTimeout _ _ => None
  end.

Definition timeouts (tr : list Cards.event) : list Z := omap delay_of tr.
Definition resolves (tr : list Cards.event) : list nat := omap resolve_of tr.

(** The session of a card that stays in the page while every call of the
    resolver fails, from the step [k] on, with [n] long retries left. *)
Fixpoint retry_trace (id : string) (k n : nat) : list Cards.event :=
  match n with
  | O => [Resolve id k]
  | S n' =>
      Resolve id k :: SetTimeout (LONG_RETRY_BASE * 2 ^ Z.of_nat k) (S k)
        :: retry_trace id (S k) n'
  end.

(** What a session may have done when the card is found missing at the
    start of step [k]: resolver calls in earlier steps, each with the card
    in the page, and timers for steps up to [k]. *)
Definition before_removal (E : env) (k : nat) (e : Cards.event) : Prop :=
  match e with
  | Resolve _ j => (j < k)%nat /\ contains E j = true
  | SetTimeout _ j => (j <= k)%nat
  end.

(** The entries of the queue and those whose job is executing. *)
Definition inflight {J : Type} (s : state J) : list (entry J) :=
  queue s ++ running (tasks s).

(** What holds of the queue after any sequence of events [evs]. *)
Record queue_inv {J : Type} (result : J -> outcome) (evs : list (Runner.event J))
    (s : state J) : Prop := QueueInv {
  inv_active : active s = Z.of_nat (length (running (tasks s)));
  inv_limit : active s <= CONCURRENCY_LIMIT;
  inv_queue : length (queue s) = waiting (tasks s);
  inv_promises : length (promises s) = length (tasks s);
  inv_submitted : length (submitted evs) = length (tasks s);
  inv_nodup : NoDup (resolve <$> inflight s);
  inv_pending : forall e, e ∈ inflight s ->
    promises s !! resolve e = Some None /\
    submitted evs !! resolve e = Some (job e);
  inv_settled : forall k x, promises s !! k = Some (Some x) ->
    exists j, submitted evs !! k = Some j /\ x = settlement (result j);
  inv_nocrash : Crashed ∉ tasks s
}.

(** A burst to try the queue on: seven submissions in a row, the first job
    settles, and an eighth submission arrives before the seventh call wakes
    up.  Jobs are numbers; the even ones return their number, the odd ones
    throw. *)
Definition burst : list (Runner.event nat) :=
  [Submit 10%nat; Submit 11%nat; Submit 12%nat; Submit 13%nat; Submit 14%nat;
   Submit 15%nat; Submit 16%nat; Settle 0; Submit 17%nat].

Definition number_job (n : nat) : outcome :=
  if Nat.even n then Returned (VNum (Z.of_nat n)) else Thrown.

(** An answer that fails the attempt: any status but 200, a body that cannot
    be read, a network error, a timeout, an abort. *)
Definition failing (r : response) : Prop := doRequest r = Thrown.

(** The test of line 121 on what the resolver returned. *)
Definition succeeds (v : value) : bool :=
  negb (strict_eq_str v "?") && negb (is_nullish v).

(** The part of a session made of [n] long retries in a row, from the step
    [k] on, and the card they leave behind. *)
Fixpoint retry_prefix (id : string) (k n : nat) : list Cards.event :=
  match n with
  | O => []
  | S n' =>
      Resolve id k :: SetTimeout (LONG_RETRY_BASE * 2 ^ Z.of_nat k) (S k)
        :: retry_prefix id (S k) n'
  end.

Fixpoint after_retries (k n : nat) (c : card) : card :=
  match n with
  | O => c
  | S n' =>
      after_retries (S k) n'
        (set_timer (LONG_RETRY_BASE * 2 ^ Z.of_nat k)
           (set_chap (VStr "") (set_badge ELLIPSIS c)))
  end.

Definition total (ds : list Z) : Z := fold_right Z.add 0 ds.

(** The requests a session sends when the resolver of step [k] gets its
    answers from [net k]. *)
Definition requests (net : nat -> nat -> response) (tr : list Cards.event) : nat :=
  sum_list ((fun k => attempt_count (snd (fetchLatestChapter (net k))))
              <$> resolves tr).

Fixpoint contains_char (sep : ascii) (s : string) : bool :=
  match s with
  | EmptyString => false
  | String c s' => Ascii.eqb c sep || contains_char sep s'
  end.

(** The filter applied again and again, once per threshold the user types
    (line 221). *)
Definition refilter (Ns : list number) (c : card) : card :=
  fold_left (fun c N => applyVisibility N c) Ns c.

(** *** DOM observer *)

(** The nodes a mutation record brings: elements, with a handle, whether
    they match [.manga-card] and their children, and other nodes. *)
#[warnings="-register-all"]
Inductive node : Type :=
| TextNode
| Element (h : nat) (is_card : bool) (kids : list node).

(** The cards of a subtree, its root included, in document order. *)
Fixpoint subtree_cards (n : node) : list nat :=
  match n with
  | TextNode => []
  | Element h is_card kids =>
      (if is_card then [h] else []) ++ flat_map subtree_cards kids
  end.

(** [n.querySelectorAll('.manga-card')]: the descendants only. *)
Definition querySelectorAll (n : node) : list nat :=
  match n with
  | TextNode => []
  | Element _ _ kids => flat_map subtree_cards kids
  end.

(** The page as the script sees it: the [WeakSet], the cards by handle, and
    what the sessions did, by handle. *)
Record world : Type := World {
  processed : gset nat;
  dom : nat -> card;
  log : list (nat * Cards.event)
}.

(** [hs.forEach(enhanceCard)]; the card [h] lives in the surroundings
    [E h].  The session a call starts unfolds later, in between the
    sessions of the other cards; it touches its own card only, and it is
    logged here as a whole, under the handle of its card. *)
Fixpoint enhance_each (fuel : nat) (E : nat -> env) (hs : list nat) (w : world)
    : option world :=
  match hs with
  | [] => Some w
  | h :: hs' =>
      match enhanceCard fuel (E h) (processed w) h (dom w h) with
      | Some (ps, c, tr) =>
          enhance_each fuel E hs'
            {| processed := ps;
               dom := fun k => if decide (k = h) then c else dom w k;
               log := log w ++ ((fun e => (h, e)) <$> tr) |}
      | None => None
      end
  end.

(** The handles the observer's callback passes to [enhanceCard], in order
    (lines 177 to 183). *)
Definition added_cards (n : node) : list nat :=
  match n with
  | TextNode => []
  | Element h is_card _ => (if is_card then [h] else []) ++ querySelectorAll n
  end.

Definition observed (muts : list (list node)) : list nat :=
  flat_map (flat_map added_cards) muts.

Definition observer (fuel : nat) (E : nat -> env) (muts : list (list node))
    (w : world) : option world :=
  enhance_each fuel E (observed muts) w.

(** How a session ends: the card was gone, the resolver delivered [v] while
    the threshold was [N], or the retries ran out. *)
Inductive verdict : Type :=
| Cancelled
| ResolvedWith (v : value) (N : number)
| GaveUp.

Definition final_card (o : verdict) (c : card) : card :=
  match o with
  | Cancelled => c
  | ResolvedWith v N => applyVisibility N (set_chap v (set_badge (to_string v) c))
  | GaveUp => set_chap (VStr "") (set_badge "?" c)
  end.

Definition final_events (id : string) (k : nat) (o : verdict) : list Cards.event :=
  match o with
  | Cancelled => []
  | ResolvedWith _ _ | GaveUp => [Resolve id k]
  end.

(** What makes step [k] the last one, with the verdict [o]. *)
Definition last_step (E : env) (k : nat) (o : verdict) : Prop :=
  match o with
  | Cancelled => contains E k = false
  | ResolvedWith v N =>
      contains E k = true /\ fetched E k = v /\ succeeds v = true /\
      N = minChapters E k
  | GaveUp =>
      contains E k = true /\ succeeds (fetched E k) = false /\
      (LONG_RETRY_MAX <= k)%nat
  end.

(** Step [j] fails and asks for another try. *)
Definition retried (E : env) (j : nat) : Prop :=
  contains E j = true /\ succeeds (fetched E j) = false.

Definition delay (k : nat) : Z := LONG_RETRY_BASE * 2 ^ Z.of_nat k.

(** ** Properties *)

(** *** The one-shot pattern *)

#[local] Arguments String.append !s1 s2 /.

Lemma eat_true p k s :
  eat p k s = true <-> exists c s', s = String c s' /\ p c = true /\ k s' = true.
Proof.
  destruct s as [|c s']; simpl.
  - split; [discriminate | intros (c & s' & H & _); discriminate].
  - rewrite andb_true_iff. split.
    + intros [Hp Hk]. eauto.
    + intros (c0 & s0 & H & Hp & Hk). injection H as -> ->. auto.
Qed.

Lemma regex_test_true r s :
  regex_test r s = true <->
  exists pre rest, s = (pre ++ rest)%string /\ match_here r rest = true.
Proof.
  induction s as [|c s IH]; simpl.
  - rewrite orb_false_r. split.
    + intros H. exists "", "". auto.
    + intros (pre & rest & H & Hm).
      destruct pre; simpl in H; [subst rest; auto | discriminate].
  - rewrite orb_true_iff, IH. split.
    + intros [H | (pre & rest & -> & Hm)].
      * exists "", (String c s). auto.
      * exists (String c pre), rest. auto.
    + intros (pre & rest & H & Hm).
      destruct pre as [|c' pre]; simpl in H.
      * subst rest. auto.
      * injection H as -> ->. right. eauto.
Qed.

Lemma ci_upper l c : ci l c = true <-> to_upper c = to_upper l.
Proof. unfold ci. apply Ascii.eqb_eq. Qed.

Lemma upcase_cons_inv s c t :
  upcase s = String c t -> exists d s', s = String d s' /\ to_upper d = c /\ upcase s' = t.
Proof.
  destruct s as [|d s']; simpl; [discriminate|].
  intros H. injection H as <- <-. eauto.
Qed.

Lemma upcase_nil_inv s : upcase s = "" -> s = "".
Proof. destruct s; simpl; [auto | discriminate]. Qed.

Lemma is_sep_true c :
  (is_space c || Ascii.eqb c "-")%bool = true <-> is_space c = true \/ c = "-"%char.
Proof. rewrite orb_true_iff, Ascii.eqb_eq. tauto. Qed.

(** The matcher for [/one[\s-]?shot/i] accepts exactly the strings of the
    form the specification describes. *)
Lemma one_shot_test_form s :
  regex_test one_shot s = true <-> one_shot_form s.
Proof.
  rewrite regex_test_true. unfold one_shot_form. split.
  - intros (pre & rest & -> & Hm). unfold one_shot in Hm. simpl in Hm.
    apply eat_true in Hm as (c1 & r1 & -> & H1 & Hm).
    apply eat_true in Hm as (c2 & r2 & -> & H2 & Hm).
    apply eat_true in Hm as (c3 & r3 & -> & H3 & Hm).
    apply ci_upper in H1, H2, H3.
    exists pre, (String c1 (String c2 (String c3 ""))).
    assert (Hshot : forall r, eat (ci "s") (eat (ci "h") (eat (ci "o")
              (eat (ci "t") (fun _ => true)))) r = true ->
            exists b post, r = (b ++ post)%string /\ upcase b = "SHOT").
    { intros r Hr.
      apply eat_true in Hr as (d1 & q1 & -> & G1 & Hr).
      apply eat_true in Hr as (d2 & q2 & -> & G2 & Hr).
      apply eat_true in Hr as (d3 & q3 & -> & G3 & Hr).
      apply eat_true in Hr as (d4 & q4 & -> & G4 & _).
      apply ci_upper in G1, G2, G3, G4.
      exists (String d1 (String d2 (String d3 (String d4 "")))), q4.
      simpl. rewrite G1, G2, G3, G4. auto. }
    apply orb_true_iff in Hm as [Hm | Hm].
    + apply eat_true in Hm as (c4 & r4 & -> & H4 & Hm).
      apply is_sep_true in H4.
      destruct (Hshot _ Hm) as (b & post & -> & Hb).
      exists (String c4 ""), b, post. simpl. rewrite H1, H2, H3.
      repeat split; auto. right. eauto.
    + destruct (Hshot _ Hm) as (b & post & -> & Hb).
      exists "", b, post. simpl. rewrite H1, H2, H3.
      repeat split; auto. left. auto.
  - intros (pre & a & sep & b & post & -> & Ha & Hsep & Hb).
    exists pre, (a ++ sep ++ b ++ post)%string. split; [auto|].
    apply upcase_cons_inv in Ha as (c1 & a1 & -> & H1 & Ha).
    apply upcase_cons_inv in Ha as (c2 & a2 & -> & H2 & Ha).
    apply upcase_cons_inv in Ha as (c3 & a3 & -> & H3 & Ha).
    apply upcase_nil_inv in Ha as ->.
    apply upcase_cons_inv in Hb as (d1 & b1 & -> & G1 & Hb).
    apply upcase_cons_inv in Hb as (d2 & b2 & -> & G2 & Hb).
    apply upcase_cons_inv in Hb as (d3 & b3 & -> & G3 & Hb).
    apply upcase_cons_inv in Hb as (d4 & b4 & -> & G4 & Hb).
    apply upcase_nil_inv in Hb as ->.
    assert (K1 : ci "o" c1 = true) by (apply ci_upper; exact H1).
    assert (K2 : ci "n" c2 = true) by (apply ci_upper; exact H2).
    assert (K3 : ci "e" c3 = true) by (apply ci_upper; exact H3).
    assert (L1 : ci "s" d1 = true) by (apply ci_upper; exact G1).
    assert (L2 : ci "h" d2 = true) by (apply ci_upper; exact G2).
    assert (L3 : ci "o" d3 = true) by (apply ci_upper; exact G3).
    assert (L4 : ci "t" d4 = true) by (apply ci_upper; exact G4).
    unfold one_shot.
    destruct Hsep as [-> | (c & -> & Hc)]; simpl.
    + rewrite K1, K2, K3, L1, L2, L3, L4. simpl. apply orb_true_r.
    + apply is_sep_true in Hc. rewrite K1, K2, K3, Hc, L1, L2, L3, L4. reflexivity.
Qed.

Example one_shot_spellings :
  map (regex_test one_shot) ["Oneshot"; "One-Shot"; "one shot"; "ONE SHOT"]
  = [true; true; true; true].
Proof. reflexivity. Qed.

Example one_shot_rejects :
  map (regex_test one_shot) ["1"; "87.5"; "one--shot"; "ones hot"; ""]
  = [false; false; false; false; false].
Proof. reflexivity. Qed.

Example parseFloat_decimals :
  map (fun s => lt (parseFloat s) (Fin 2)) ["1"; "1.5"; "  1e0x"; "-3"; ".5"]
    = [true; true; true; true; true] /\
  map (fun s => lt (parseFloat s) (Fin 2)) ["2"; "87.5"; "2e1"; "Infinity"]
    = [false; false; false; false] /\
  map (fun s => isNaN (parseFloat s)) [""; "undefined"; "."; "-"; "e5"; "abc"]
    = [true; true; true; true; true; true].
Proof. repeat split. Qed.

Example split_href :
  split "/" "/title/abc/name" = [""; "title"; "abc"; "name"] /\
  mangaId (fresh_card true (Some "/title/abc/name")) = VStr "abc" /\
  mangaId (fresh_card true (Some "/title/")) = VStr "" /\
  mangaId (fresh_card true (Some "x")) = VUndefined /\
  mangaId (fresh_card true None) = VUndefined.
Proof. repeat split. Qed.

(** *** Normalization of the chapter field *)

(** C4: a chapter field that is absent, null, or whose string form has the
    one-shot form (the letters of "one", an optional white space or hyphen,
    the letters of "shot", in either case, anywhere in the string) is
    normalized to exactly the string "1", and that is what the request
    resolves with. *)
Theorem one_shot_normalized_to_1 (raw : value) :
  raw = VUndefined \/ raw = VNull \/ one_shot_form (to_string raw) ->
  normalize raw = VStr "1" /\
  doRequest (OnLoad 200 (Chapter raw)) = Returned (VStr "1").
Proof.
  intros H.
  assert (Hn : normalize raw = VStr "1").
  { unfold normalize. destruct H as [-> | [-> | H]]; try reflexivity.
    apply one_shot_test_form in H. rewrite H, orb_true_r. reflexivity. }
  split; [exact Hn|]. simpl. rewrite Hn. reflexivity.
Qed.

Lemma one_shot_normalized_to_1_witness :
  one_shot_form (to_string (VStr "One-Shot")) /\
  normalize (VStr "One-Shot") = VStr "1" /\
  doRequest (OnLoad 200 (Chapter (VStr "One-Shot"))) = Returned (VStr "1").
Proof.
  assert (H : one_shot_form (to_string (VStr "One-Shot"))).
  { exists "", "One", "-", "Shot", "". repeat split; try reflexivity.
    right. exists "-"%char. split; [reflexivity | right; reflexivity]. }
  split; [exact H|].
  apply (one_shot_normalized_to_1 (VStr "One-Shot")). right. right. exact H.
Defined.

(** C5, as stated, fails: the number 5 is not null, is not empty and does
    not match the one-shot pattern, yet what normalization returns, and what
    the request resolves with, is the number 5 and not the string "5". *)
Lemma number_is_not_stringified :
  is_nullish (VNum 5) = false /\
  regex_test one_shot (to_string (VNum 5)) = false /\
  to_string (VNum 5) = "5" /\
  normalize (VNum 5) = VNum 5 /\
  normalize (VNum 5) <> VStr (to_string (VNum 5)) /\
  doRequest (OnLoad 200 (Chapter (VNum 5))) <> Returned (VStr (to_string (VNum 5))).
Proof. repeat split; try reflexivity; discriminate. Qed.

(** C5, amended: a chapter field that is neither absent nor null and does
    not have the one-shot form is returned unchanged, so its string form is
    [String(raw)]; it is the string [String(raw)] itself when the field is a
    string, and [String(raw)] is what ends up in the badge and in
    [dataset.chap]. *)
Theorem normalize_identity (raw : value) :
  is_nullish raw = false ->
  ~ one_shot_form (to_string raw) ->
  normalize raw = raw /\
  doRequest (OnLoad 200 (Chapter raw)) = Returned raw /\
  to_string (normalize raw) = to_string raw /\
  (forall s, raw = VStr s -> normalize raw = VStr (to_string raw)) /\
  (forall c, chap (set_chap (normalize raw) c) = VStr (to_string raw) /\
             badge (set_badge (to_string (normalize raw)) c) = Some (to_string raw)).
Proof.
  intros Hnull Hform.
  assert (Hn : normalize raw = raw).
  { unfold normalize. rewrite Hnull. simpl.
    destruct (regex_test one_shot (to_string raw)) eqn:Ht; [|reflexivity].
    apply one_shot_test_form in Ht. contradiction. }
  split; [exact Hn|]. split.
  { simpl. rewrite Hn. unfold nullish_or. rewrite Hnull. reflexivity. }
  rewrite Hn. split; [reflexivity|]. split.
  - intros s ->. reflexivity.
  - intros c. split; reflexivity.
Qed.

Lemma normalize_identity_witness :
  normalize (VStr "87.5") = VStr "87.5" /\
  doRequest (OnLoad 200 (Chapter (VStr "87.5"))) = Returned (VStr "87.5").
Proof.
  assert (H : ~ one_shot_form (to_string (VStr "87.5"))).
  { intros H. apply one_shot_test_form in H. vm_compute in H. discriminate. }
  destruct (normalize_identity (VStr "87.5") eq_refl H) as (H1 & H2 & _).
  split; [exact H1 | exact H2].
Defined.

(** *** The short retries of the resolver *)

Lemma failing_cases r :
  failing r <-> forall chap, r <> OnLoad 200 (Chapter chap).
Proof.
  unfold failing. split.
  - intros H chap ->. discriminate.
  - intros H. destruct r as [status [|chap]| | |]; simpl; try reflexivity.
    + destruct (negb (status =? 200)); reflexivity.
    + destruct (status =? 200) eqn:Hs; [|reflexivity].
      apply Z.eqb_eq in Hs as ->. destruct (H chap). reflexivity.
Qed.

(** The promise of [runJob] is never rejected, so the first iteration of the
    loop returns, whatever the request did. *)
Lemma attempts_first_iteration n a net :
  attempts (S n) a net =
  (match doRequest (net a) with Returned v => v | Thrown => VNull end,
   [Attempt a]).
Proof. simpl. destruct (doRequest (net a)); reflexivity. Qed.

(** C2, on the code: when every request fails, [fetchLatestChapter] makes a
    single attempt, never takes the back-off sleep of line 101 and returns
    [null]; it makes neither [SHORT_RETRY_COUNT] attempts nor returns "?". *)
Theorem fetchLatestChapter_single_attempt (net : nat -> response) :
  (forall a, failing (net a)) ->
  fetchLatestChapter net = (VNull, [Attempt 0%nat]) /\
  attempt_count (snd (fetchLatestChapter net)) = 1%nat /\
  attempt_count (snd (fetchLatestChapter net)) <> SHORT_RETRY_COUNT /\
  fst (fetchLatestChapter net) <> VStr "?".
Proof.
  intros Hfail.
  assert (H : fetchLatestChapter net = (VNull, [Attempt 0%nat])).
  { unfold fetchLatestChapter, SHORT_RETRY_COUNT.
    rewrite attempts_first_iteration. rewrite (Hfail 0%nat). reflexivity. }
  rewrite H. repeat split; try reflexivity; discriminate.
Qed.

Lemma fetchLatestChapter_single_attempt_witness :
  fetchLatestChapter (fun _ => OnLoad 500 Unparseable) = (VNull, [Attempt 0%nat]).
Proof.
  apply (fetchLatestChapter_single_attempt (fun _ => OnLoad 500 Unparseable)).
  intros a. reflexivity.
Defined.

(** *** The visibility filter *)

Lemma display_applyVisibility N c :
  display (applyVisibility N c) =
  if negb (isNaN (parseFloat (to_string (chap c)))) && gt N zero
     && lt (parseFloat (to_string (chap c))) N
  then "none" else "".
Proof. reflexivity. Qed.

Lemma unresolved_not_numeric c :
  unresolved c -> parseFloat (to_string (chap c)) = NaN.
Proof. intros [-> | ->]; reflexivity. Qed.

Lemma unresolved_stays_visible N c :
  unresolved c -> display (applyVisibility N c) = "".
Proof.
  intros H. rewrite display_applyVisibility, (unresolved_not_numeric c H).
  reflexivity.
Qed.

(** C7, as stated, fails: with the threshold 0 a card whose chapter is "-1"
    reads as a number below the threshold, and it is not hidden. *)
Lemma negative_chapter_not_hidden :
  let c := set_chap (VStr "-1") (fresh_card true None) in
  numeric_below (Fin 0) c /\ ~ hidden (applyVisibility (Fin 0) c).
Proof.
  split.
  - split; reflexivity.
  - unfold hidden. simpl. discriminate.
Qed.

(** C7, amended: the filter hides exactly the cards whose chapter reads as a
    number below the threshold while the threshold is above 0 (with a
    threshold of 0 or less, or one that is not a number, nothing is hidden);
    a card that is pending or unknown is never hidden; and the filter only
    ever writes "none" or the empty string. *)
Theorem applyVisibility_hides (N : number) (c : card) :
  (hidden (applyVisibility N c) <-> gt N zero = true /\ numeric_below N c) /\
  (gt N zero = false -> display (applyVisibility N c) = "") /\
  (unresolved c -> display (applyVisibility N c) = "") /\
  (display (applyVisibility N c) = "none" \/ display (applyVisibility N c) = "").
Proof.
  unfold hidden, numeric_below. rewrite display_applyVisibility.
  set (n := parseFloat (to_string (chap c))).
  split; [|split; [|split]].
  - destruct (isNaN n), (gt N zero), (lt n N); simpl;
      (split; [intros H | intros (H1 & H2 & H3)]);
      repeat split; congruence.
  - intros ->. rewrite andb_false_r. reflexivity.
  - intros H. subst n. rewrite (unresolved_not_numeric c H). reflexivity.
  - destruct (_ && _ && _); auto.
Qed.

Lemma applyVisibility_hides_witness :
  let c := set_chap (VStr "1") (fresh_card true None) in
  hidden (applyVisibility (Fin 2) c) /\
  display (applyVisibility (Fin 2) (fresh_card true None)) = "".
Proof.
  split.
  - apply (applyVisibility_hides (Fin 2)). repeat split; reflexivity.
  - apply (applyVisibility_hides (Fin 2)). left. reflexivity.
Defined.

(** *** Discovery of a card *)

Lemma mangaId_regardless c t p :
  mangaId (set_badge t (set_cover_position p (remove_title_badge c))) = mangaId c.
Proof. reflexivity. Qed.

(** C9, as stated, fails: a new card without a link to a title and without
    a cover element is left as it is, with no badge to show "?". *)
Lemma coverless_card_not_marked :
  let E := {| contains := fun _ => true; fetched := fun _ => VStr "1";
              minChapters := fun _ => Fin 0 |} in
  let c := fresh_card false None in
  (0%nat ∉ (∅ : gset nat)) /\
  truthy (mangaId c) = false /\
  enhanceCard 7 E ∅ 0%nat c = Some ({[0%nat]} ∪ ∅, c, []) /\
  badge c <> Some "?".
Proof.
  repeat split; try reflexivity.
  - apply not_elem_of_empty.
  - discriminate.
Qed.

(** C9, amended: for a card not seen before from which no identifier can be
    extracted, no session is started and the resolver is never called; when
    the card has a cover element its badge shows "?" at once and the card
    stays as visible as it was, and when it has none the card is left
    without a badge. *)
Theorem enhanceCard_without_id (fuel : nat) (E : env) (processed : gset nat)
    (h : nat) (c : card) :
  h ∉ processed ->
  truthy (mangaId c) = false ->
  exists c',
    enhanceCard fuel E processed h c = Some ({[h]} ∪ processed, c', []) /\
    (has_cover c = true ->
       badge c' = Some "?" /\ chap c' = chap c /\ display c' = display c /\
       timer c' = timer c) /\
    (has_cover c = false -> c' = remove_title_badge c).
Proof.
  intros Hnew Hid. unfold enhanceCard.
  destruct (decide (h ∈ processed)) as [Hin | _]; [contradiction|].
  destruct (has_cover c) eqn:Hcover; simpl; rewrite Hcover; simpl.
  - rewrite mangaId_regardless, Hid. simpl.
    eexists. split; [reflexivity|]. split; [|discriminate].
    intros _. repeat split.
  - eexists. split; [reflexivity|]. split; [discriminate|]. reflexivity.
Qed.

Lemma enhanceCard_without_id_witness :
  let E := {| contains := fun _ => true; fetched := fun _ => VStr "1";
              minChapters := fun _ => Fin 0 |} in
  exists c',
    enhanceCard 7 E ∅ 0%nat (fresh_card true (Some "/title/")) =
      Some ({[0%nat]} ∪ ∅, c', []) /\
    badge c' = Some "?".
Proof.
  intros E.
  destruct (enhanceCard_without_id 7 E ∅ 0%nat (fresh_card true (Some "/title/")))
    as (c' & Hc & Hcover & _).
  - apply not_elem_of_empty.
  - reflexivity.
  - exists c'. split; [exact Hc|]. apply Hcover. reflexivity.
Defined.

(** *** The long retries of a card *)

(** A session ends: the steps left are at most [LONG_RETRY_MAX - longTry]
    after the current one. *)
Lemma tryFillBadge_returns fuel E c id longTry :
  (LONG_RETRY_MAX - longTry < fuel)%nat ->
  exists c' tr, tryFillBadge fuel E c id longTry = Some (c', tr).
Proof.
  revert c longTry. induction fuel as [|fuel IH]; intros c longTry Hfuel; [lia|].
  simpl. destruct (contains E longTry); simpl; [|eauto].
  destruct (negb (strict_eq_str _ "?") && negb (is_nullish _)); [eauto|].
  destruct (longTry <? LONG_RETRY_MAX)%nat eqn:Hlt; [|eauto].
  apply Nat.ltb_lt in Hlt.
  edestruct (IH (set_timer (LONG_RETRY_BASE * 2 ^ Z.of_nat longTry)
                   (set_chap (VStr "") (set_badge ELLIPSIS c))) (S longTry))
    as (c' & tr & ->); [lia | eauto].
Qed.

(** A card that is missing when a step starts stops its session there. *)
Lemma tryFillBadge_removed fuel E c id longTry :
  contains E longTry = false ->
  tryFillBadge (S fuel) E c id longTry = Some (c, []).
Proof. intros H. simpl. rewrite H. reflexivity. Qed.

Lemma tryFillBadge_before_removal fuel E c id longTry c' tr k :
  tryFillBadge fuel E c id longTry = Some (c', tr) ->
  (longTry <= k)%nat ->
  contains E k = false ->
  Forall (before_removal E k) tr.
Proof.
  revert c longTry c' tr.
  induction fuel as [|fuel IH]; intros c longTry c' tr; [discriminate|].
  simpl. intros Hrun Hle Hk.
  destruct (contains E longTry) eqn:Hlive; simpl in Hrun.
  2:{ injection Hrun as <- <-. constructor. }
  assert (Hlt : (longTry < k)%nat).
  { destruct (decide (longTry = k)) as [-> | ]; [congruence | lia]. }
  assert (Hnow : before_removal E k (Resolve id longTry)) by (split; assumption).
  destruct (negb (strict_eq_str _ "?") && negb (is_nullish _)).
  { injection Hrun as <- <-. repeat constructor; assumption. }
  destruct (longTry <? LONG_RETRY_MAX)%nat.
  2:{ injection Hrun as <- <-. repeat constructor; assumption. }
  destruct (tryFillBadge fuel E _ id (S longTry)) as [[c'' tr']|] eqn:Hrec;
    [|discriminate].
  injection Hrun as <- <-.
  constructor; [assumption|]. constructor; [exact Hlt|].
  apply (IH _ _ _ _ Hrec); [lia | assumption].
Qed.

(** C8: if the card is no longer in the page when a step of its session
    starts (the first step, or a re-entry from a timer that was pending when
    the card was removed), that step returns before calling the resolver and
    schedules nothing: the session ends, every call of the resolver it made
    belongs to an earlier step that found the card in the page, and no timer
    was set for a later step. *)
Theorem removed_card_never_resolved (fuel : nat) (E : env) (c : card)
    (id : string) (longTry k : nat) :
  (LONG_RETRY_MAX - longTry < fuel)%nat ->
  (longTry <= k)%nat ->
  contains E k = false ->
  exists c' tr,
    tryFillBadge fuel E c id longTry = Some (c', tr) /\
    (forall id' j, Resolve id' j ∈ tr -> (j < k)%nat /\ contains E j = true) /\
    (forall d j, SetTimeout d j ∈ tr -> (j <= k)%nat) /\
    (longTry = k -> c' = c /\ tr = []).
Proof.
  intros Hfuel Hle Hk.
  destruct (tryFillBadge_returns fuel E c id longTry Hfuel) as (c' & tr & Hrun).
  exists c', tr. split; [exact Hrun|].
  pose proof (tryFillBadge_before_removal _ _ _ _ _ _ _ _ Hrun Hle Hk) as Hall.
  rewrite Forall_forall in Hall.
  split; [|split].
  - intros id' j Hin. exact (Hall _ Hin).
  - intros d j Hin. exact (Hall _ Hin).
  - intros ->. destruct fuel as [|fuel]; [lia|].
    rewrite (tryFillBadge_removed fuel E c id k Hk) in Hrun.
    injection Hrun as <- <-. auto.
Qed.

Lemma removed_card_never_resolved_witness :
  let E := {| contains := fun k => (k <? 2)%nat; fetched := fun _ => VStr "?";
              minChapters := fun _ => Fin 0 |} in
  exists c' tr,
    tryFillBadge 7 E (fresh_card true None) "abc" 0 = Some (c', tr) /\
    (forall id' j, Resolve id' j ∈ tr -> (j < 2)%nat /\ contains E j = true).
Proof.
  intros E.
  destruct (removed_card_never_resolved 7 E (fresh_card true None) "abc" 0 2)
    as (c' & tr & Hrun & Hres & _).
  - unfold LONG_RETRY_MAX. lia.
  - lia.
  - reflexivity.
  - exists c', tr. split; [exact Hrun | exact Hres].
Defined.

(** A card that stays in the page while no call of the resolver succeeds
    (each returns "?", [null] or [undefined]) goes through all the long
    retries that are left and ends up unknown. *)
Lemma failing_session_from E id :
  (forall k, contains E k = true) ->
  (forall k, negb (strict_eq_str (fetched E k) "?")
             && negb (is_nullish (fetched E k)) = false) ->
  forall n k fuel c,
    (k + n = LONG_RETRY_MAX)%nat ->
    (n < fuel)%nat ->
    exists c',
      tryFillBadge fuel E c id k = Some (c', retry_trace id k n) /\
      badge c' = Some "?" /\ chap c' = VStr "" /\ display c' = display c.
Proof.
  intros Hlive Hfail.
  induction n as [|n IH]; intros k fuel c Hk Hfuel;
    (destruct fuel as [|fuel]; [lia|]); simpl; rewrite Hlive, Hfail; simpl.
  - replace (k <? LONG_RETRY_MAX)%nat with false
      by (symmetry; apply Nat.ltb_ge; lia).
    eexists. split; [reflexivity|]. auto.
  - replace (k <? LONG_RETRY_MAX)%nat with true
      by (symmetry; apply Nat.ltb_lt; lia).
    edestruct (IH (S k) fuel) as (c' & -> & Hb & Hc & Hd); [lia | lia |].
    exists c'. split; [reflexivity|]. auto.
Qed.

(** C6: for a card that stays in the page and whose resolver returns "?" on
    every call, the session started with [longTry = 0] sets exactly
    [LONG_RETRY_MAX] timers, with the delays [LONG_RETRY_BASE * 2^0] up to
    [LONG_RETRY_BASE * 2^(LONG_RETRY_MAX-1)] (5, 10, 20, 40, 80 and 160
    seconds) in this order, calls the resolver once per step, and ends with the
    badge showing "?", the chapter unknown and the card as visible as it
    was, whatever threshold the filter is applied with afterwards. *)
Theorem always_failing_session (fuel : nat) (E : env) (c : card) (id : string) :
  (LONG_RETRY_MAX < fuel)%nat ->
  (forall k, contains E k = true) ->
  (forall k, fetched E k = VStr "?") ->
  exists c' tr,
    tryFillBadge fuel E c id 0 = Some (c', tr) /\
    tr = retry_trace id 0 LONG_RETRY_MAX /\
    timeouts tr =
      map (fun i => LONG_RETRY_BASE * 2 ^ Z.of_nat i) (seq 0 LONG_RETRY_MAX) /\
    timeouts tr = [5000; 10000; 20000; 40000; 80000; 160000] /\
    length (timeouts tr) = LONG_RETRY_MAX /\
    resolves tr = seq 0 (S LONG_RETRY_MAX) /\
    badge c' = Some "?" /\
    unresolved c' /\
    display c' = display c /\
    (forall N, display (applyVisibility N c') = "").
Proof.
  intros Hfuel Hlive Hfail.
  assert (Hnone : forall k, negb (strict_eq_str (fetched E k) "?")
                            && negb (is_nullish (fetched E k)) = false)
    by (intros k; rewrite Hfail; reflexivity).
  destruct (failing_session_from E id Hlive Hnone LONG_RETRY_MAX 0%nat fuel c)
    as (c' & Hrun & Hb & Hc & Hd); [reflexivity | exact Hfuel |].
  exists c', (retry_trace id 0 LONG_RETRY_MAX).
  split; [exact Hrun|]. split; [reflexivity|].
  assert (Hu : unresolved c') by (right; exact Hc).
  repeat split; try reflexivity; try assumption.
  intros N. apply unresolved_stays_visible. exact Hu.
Qed.

Lemma always_failing_session_witness :
  let E := {| contains := fun _ => true; fetched := fun _ => VStr "?";
              minChapters := fun _ => Fin 3 |} in
  exists c' tr,
    tryFillBadge 7 E (fresh_card true (Some "/title/abc")) "abc" 0 = Some (c', tr) /\
    timeouts tr = [5000; 10000; 20000; 40000; 80000; 160000] /\
    badge c' = Some "?".
Proof.
  intros E.
  destruct (always_failing_session 7 E (fresh_card true (Some "/title/abc")) "abc")
    as (c' & tr & Hrun & _ & _ & Ht & _ & _ & Hb & _).
  - unfold LONG_RETRY_MAX. lia.
  - reflexivity.
  - reflexivity.
  - exists c', tr. auto.
Defined.

(** X17: the resolver and the long retries put together, [net k a] being the
    answer to the request of index [a] made by the resolver in step [k].
    When every request fails and the card stays in the page, the long
    retries run in full although the short ones do not: all
    [LONG_RETRY_MAX] timers are set and the card ends with the badge "?". *)
Lemma failing_network_session fuel (net : nat -> nat -> response) live mc c id :
  (LONG_RETRY_MAX < fuel)%nat ->
  (forall k, live k = true) ->
  (forall k a, failing (net k a)) ->
  exists c',
    tryFillBadge fuel
      {| contains := live;
         fetched := fun k => fst (fetchLatestChapter (net k));
         minChapters := mc |} c id 0
    = Some (c', retry_trace id 0 LONG_RETRY_MAX) /\
    badge c' = Some "?" /\ chap c' = VStr "" /\ display c' = display c.
Proof.
  intros Hfuel Hlive Hfail.
  apply failing_session_from; [exact Hlive | | reflexivity | exact Hfuel].
  intros k. simpl. unfold fetchLatestChapter, SHORT_RETRY_COUNT.
  rewrite attempts_first_iteration, (Hfail k 0%nat). reflexivity.
Qed.

(** Two scenarios of the specification.  A chapter field that is [null] is
    resolved as "1" at the first attempt, and the card is hidden by a
    threshold of 2. *)
Example scenario_null_chapter :
  let E := {| contains := fun _ => true;
              fetched := fun _ =>
                fst (fetchLatestChapter (fun _ => OnLoad 200 (Chapter VNull)));
              minChapters := fun _ => Fin 2 |} in
  exists c',
    tryFillBadge 7 E (fresh_card true (Some "/title/abc")) "abc" 0
      = Some (c', [Resolve "abc" 0]) /\
    badge c' = Some "1" /\ chap c' = VStr "1" /\ display c' = "none".
Proof. eexists. repeat split. Qed.

(** Five resolver calls fail, the sixth returns "87.5". *)
Example scenario_late_success :
  let E := {| contains := fun _ => true;
              fetched := fun k => if (k <? 5)%nat then VNull else VStr "87.5";
              minChapters := fun _ => Fin 0 |} in
  exists c' tr,
    tryFillBadge 7 E (fresh_card true (Some "/title/abc")) "abc" 0
      = Some (c', tr) /\
    resolves tr = [0; 1; 2; 3; 4; 5]%nat /\
    timeouts tr = [5000; 10000; 20000; 40000; 80000] /\
    badge c' = Some "87.5" /\ chap c' = VStr "87.5" /\ display c' = "".
Proof. eexists _, _. repeat split. Qed.

(** *** The queue *)

Section RunnerFacts.

Context {J : Type} (result : J -> outcome).

Implicit Types (s : state J) (e : entry J) (ts : list (task J))
  (evs : list (Runner.event J)).

Lemma insert_split {A} (l : list A) (i : nat) (x y : A) :
  l !! i = Some x ->
  exists l1 l2, l = l1 ++ x :: l2 /\ <[i := y]> l = l1 ++ y :: l2 /\ length l1 = i.
Proof.
  intros H. exists (take i l), (drop (S i) l).
  pose proof (lookup_lt_Some _ _ _ H) as Hlt.
  split; [symmetry; by apply take_drop_middle|].
  split; [by apply insert_take_drop|].
  rewrite length_take. lia.
Qed.

Lemma running_app ts1 ts2 : running (ts1 ++ ts2) = running ts1 ++ running ts2.
Proof. apply omap_app. Qed.

Lemma waiting_app ts1 ts2 : waiting (ts1 ++ ts2) = (waiting ts1 + waiting ts2)%nat.
Proof. unfold waiting. by rewrite filter_app, length_app. Qed.

Lemma submitted_snoc evs ev :
  submitted (evs ++ [ev]) =
  submitted evs ++ match ev with Submit j => [j] | _ => [] end.
Proof. unfold submitted. rewrite omap_app. by destruct ev. Qed.

Lemma run_snoc evs ev : run result (evs ++ [ev]) = step result (run result evs) ev.
Proof. unfold run. by rewrite fold_left_app. Qed.

(** A call that is waiting has its entry, or another one, in the queue. *)
Lemma waiting_positive ts i : ts !! i = Some Waiting -> (0 < waiting ts)%nat.
Proof.
  intros H. destruct (insert_split ts i Waiting Waiting H) as (l1 & l2 & -> & _).
  rewrite waiting_app. unfold waiting at 2. rewrite filter_cons_True by done.
  simpl. lia.
Qed.

Lemma start_running ts i e :
  ts !! i = Some Waiting ->
  running (<[i := Running e]> ts) ≡ₚ e :: running ts /\
  S (waiting (<[i := Running e]> ts)) = waiting ts /\
  (Crashed ∉ ts -> Crashed ∉ <[i := Running e]> ts).
Proof.
  intros H.
  destruct (insert_split ts i Waiting (Running e) H) as (l1 & l2 & -> & -> & _).
  rewrite !running_app, !waiting_app. simpl. split; [|split].
  - unfold running at 2. simpl. fold (running l2).
    by rewrite <- Permutation_middle.
  - unfold waiting at 2 4. rewrite filter_cons_False by (simpl; tauto).
    rewrite filter_cons_True by done. simpl. lia.
  - rewrite !elem_of_app, !elem_of_cons. intros Hn [?|[?|?]]; [tauto | done | tauto].
Qed.

Lemma stop_running ts i e :
  ts !! i = Some (Running e) ->
  running ts ≡ₚ e :: running (<[i := Finished]> ts) /\
  waiting (<[i := Finished]> ts) = waiting ts /\
  (Crashed ∉ ts -> Crashed ∉ <[i := Finished]> ts).
Proof.
  intros H.
  destruct (insert_split ts i (Running e) Finished H) as (l1 & l2 & -> & -> & _).
  rewrite !running_app, !waiting_app. simpl. split; [|split].
  - unfold running at 2 4. simpl. fold (running l2).
    by rewrite <- Permutation_middle.
  - unfold waiting at 2 4. rewrite !filter_cons_False by (simpl; tauto). done.
  - rewrite !elem_of_app, !elem_of_cons. intros Hn [?|[?|?]]; [tauto | done | tauto].
Qed.

Lemma init_inv : queue_inv result [] init.
Proof.
  split; simpl; try done.
  - constructor.
  - intros e H. by apply elem_of_nil in H.
  - apply not_elem_of_nil.
Qed.

(** Events other than a submission leave the list of submitted jobs as it
    is. *)
Lemma queue_inv_event evs ev s :
  submitted_job ev = None ->
  queue_inv result evs s -> queue_inv result (evs ++ [ev]) s.
Proof.
  intros Hev H. assert (Hs : submitted (evs ++ [ev]) = submitted evs).
  { rewrite submitted_snoc. destruct ev; [done | apply app_nil_r ..]. }
  destruct H. split; rewrite ?Hs; assumption.
Qed.

(** Line 46: the entry is pushed, the call has not looked at [active] yet. *)
Lemma push_inv evs s j :
  queue_inv result evs s ->
  queue_inv result (evs ++ [Submit j])
    {| queue := queue s ++ [{| job := j; resolve := length (tasks s) |}];
       active := active s;
       tasks := tasks s ++ [Waiting];
       promises := promises s ++ [None] |}.
Proof.
  intros [Ha Hl Hq Hp Hs Hn Hpe Hse Hc].
  assert (Hfresh : forall e, e ∈ inflight s -> (resolve e < length (tasks s))%nat).
  { intros e He. destruct (Hpe e He) as [H _].
    apply lookup_lt_Some in H. lia. }
  assert (Hinflight : inflight
            {| queue := queue s ++ [{| job := j; resolve := length (tasks s) |}];
               active := active s;
               tasks := tasks s ++ [Waiting];
               promises := promises s ++ [None] |}
          ≡ₚ {| job := j; resolve := length (tasks s) |} :: inflight s).
  { unfold inflight. simpl. rewrite running_app. simpl. rewrite app_nil_r.
    rewrite <- app_assoc. simpl. by rewrite <- Permutation_middle. }
  split; rewrite ?Hinflight; simpl;
    rewrite ?submitted_snoc, ?running_app, ?waiting_app, ?length_app;
    simpl; rewrite ?app_nil_r; try lia; try assumption.
  - rewrite Hq. reflexivity.
  - constructor; [|exact Hn].
    intros Hin. apply list_elem_of_fmap in Hin as (e & He1 & He2).
    apply Hfresh in He2. lia.
  - intros e He. rewrite Hinflight in He.
    apply elem_of_cons in He as [-> | He]; simpl.
    + split.
      * rewrite lookup_app_r by lia. by replace (_ - _)%nat with 0%nat by lia.
      * rewrite lookup_app_r by lia. by replace (_ - _)%nat with 0%nat by lia.
    + destruct (Hpe e He) as [H1 H2]. split.
      * by rewrite lookup_app_l by (by eapply lookup_lt_Some).
      * by rewrite lookup_app_l by (by eapply lookup_lt_Some).
  - intros k x Hk.
    assert (Hk' : promises s !! k = Some (Some x)).
    { destruct (decide (k < length (promises s))%nat).
      - by rewrite lookup_app_l in Hk.
      - rewrite lookup_app_r in Hk by lia.
        destruct (k - length (promises s))%nat; simpl in Hk; [done|].
        by rewrite lookup_nil in Hk. }
    destruct (Hse k x Hk') as (j' & Hj & Hx). exists j'. split; [|done].
    by rewrite lookup_app_l by (by eapply lookup_lt_Some).
  - rewrite elem_of_app, list_elem_of_singleton. intros [?|?]; [tauto | done].
Qed.

(** Lines 47 to 50, for a call that was waiting. *)
Lemma enter_inv evs s i :
  tasks s !! i = Some Waiting ->
  queue_inv result evs s -> queue_inv result evs (enter i s).
Proof.
  intros Hi H. unfold enter.
  destruct (CONCURRENCY_LIMIT <=? active s) eqn:Hfull.
  { rewrite list_insert_id by done. by destruct s. }
  apply Z.leb_gt in Hfull.
  destruct H as [Ha Hl Hq Hp Hs Hn Hpe Hse Hc].
  pose proof (waiting_positive _ _ Hi) as Hpos.
  destruct (queue s) as [|e q] eqn:Hqueue; simpl in Hq; [lia|].
  destruct (start_running (tasks s) i e Hi) as (Hrun & Hwait & Hcrash).
  assert (Hperm : inflight {| queue := q; active := active s + 1;
                              tasks := <[i := Running e]> (tasks s);
                              promises := promises s |} ≡ₚ inflight s).
  { unfold inflight. simpl. rewrite Hqueue, Hrun. simpl.
    by rewrite <- Permutation_middle. }
  split; simpl; rewrite ?length_insert; try assumption; try lia; auto.
  - rewrite Hrun. simpl. lia.
  - by rewrite Hperm.
  - intros e' He'. apply Hpe. by rewrite <- Hperm.
Qed.

(** Lines 50 to 52, once the job has settled. *)
Lemma settle_inv evs s i e :
  tasks s !! i = Some (Running e) ->
  queue_inv result evs s ->
  promises s !! resolve e = Some None /\
  submitted evs !! resolve e = Some (job e) /\
  queue_inv result evs
    {| queue := queue s; active := active s - 1;
       tasks := <[i := Finished]> (tasks s);
       promises := <[resolve e := Some (settlement (result (job e)))]> (promises s) |}.
Proof.
  intros Hi [Ha Hl Hq Hp Hs Hn Hpe Hse Hc].
  destruct (stop_running (tasks s) i e Hi) as (Hrun & Hwait & Hcrash).
  assert (Hperm : inflight s ≡ₚ
            e :: inflight {| queue := queue s; active := active s - 1;
                             tasks := <[i := Finished]> (tasks s);
                             promises := <[resolve e := Some (settlement (result (job e)))]> (promises s) |}).
  { unfold inflight. simpl. rewrite Hrun. by rewrite <- Permutation_middle. }
  assert (He : e ∈ inflight s) by (rewrite Hperm; apply elem_of_cons; auto).
  destruct (Hpe e He) as [Hpend Hsub].
  split; [done|]. split; [done|].
  rewrite Hperm in Hn. simpl in Hn. apply NoDup_cons in Hn as [Hnew Hn].
  split; simpl; rewrite ?length_insert; try assumption; try lia; auto.
  - rewrite Ha, Hrun. simpl. lia.
  - intros e' He'.
    assert (Hne : resolve e ≠ resolve e').
    { intros Heq. apply Hnew. rewrite Heq. by apply list_elem_of_fmap_2. }
    rewrite list_lookup_insert_ne by done. apply Hpe. rewrite Hperm.
    apply elem_of_cons. auto.
  - intros k x Hk. destruct (decide (k = resolve e)) as [-> | Hne].
    + rewrite list_lookup_insert_eq in Hk by (by eapply lookup_lt_Some).
      injection Hk as <-. eauto.
    + rewrite list_lookup_insert_ne in Hk by done. eauto.
Qed.

Lemma settle_pending p x (ps : list (option settled)) :
  ps !! p = Some None -> settle p x ps = <[p := Some x]> ps.
Proof. intros H. unfold settle. by rewrite H. Qed.

Lemma step_inv evs s ev :
  queue_inv result evs s -> queue_inv result (evs ++ [ev]) (step result s ev).
Proof.
  intros H. destruct ev as [j | i | i]; simpl.
  - apply enter_inv; [|by apply push_inv]. simpl.
    rewrite lookup_app_r by lia. by rewrite Nat.sub_diag.
  - destruct (tasks s !! i) as [[| | |]|] eqn:Hi;
      try (by apply queue_inv_event).
    apply enter_inv; [done | by apply queue_inv_event].
  - destruct (tasks s !! i) as [[|e| |]|] eqn:Hi;
      try (by apply queue_inv_event).
    apply queue_inv_event; [done|].
    destruct (settle_inv evs s i e Hi H) as (Hpend & _ & Hinv).
    by rewrite settle_pending.
Qed.

(** The invariant holds after every sequence of events. *)
Lemma run_inv evs : queue_inv result evs (run result evs).
Proof.
  induction evs as [|ev evs IH] using rev_ind.
  - apply init_inv.
  - rewrite run_snoc. by apply step_inv.
Qed.

(** The queue never runs dry under a call that leaves the loop: no call
    ends in [Crashed]. *)
Lemma run_never_crashes evs : Crashed ∉ tasks (run result evs).
Proof. exact (inv_nocrash _ _ _ (run_inv evs)). Qed.

(** A call starts a job only through [enter], below the limit. *)
Lemma enter_starts i' s i e :
  tasks s !! i ≠ Some (Running e) ->
  tasks (enter i' s) !! i = Some (Running e) ->
  active s < CONCURRENCY_LIMIT /\ active (enter i' s) = active s + 1.
Proof.
  unfold enter. intros Hold.
  destruct (CONCURRENCY_LIMIT <=? active s) eqn:Hfull; simpl.
  { intros Hnew. apply list_lookup_insert_Some in Hnew as [(_ & ? & _) | (_ & ?)]; done. }
  apply Z.leb_gt in Hfull.
  destruct (queue s); simpl; [|done].
  intros Hnew. apply list_lookup_insert_Some in Hnew as [(_ & ? & _) | (_ & ?)]; done.
Qed.

Lemma enter_promises i s : promises (enter i s) = promises s.
Proof.
  unfold enter. destruct (CONCURRENCY_LIMIT <=? active s); [done|].
  by destruct (queue s).
Qed.



(** C1: after any sequence of submissions, wake-ups and completions, the
    number of executing jobs is [active], and it is at most
    [CONCURRENCY_LIMIT] (6); a call starts executing a job only in a step
    taken with [active] below the limit, and that step increments [active];
    when an executing job settles, whichever way, [active] is decremented
    and the call is over. *)
Theorem active_never_exceeds_limit (evs : list (Runner.event J)) :
  let s := run result evs in
  (0 <= active s <= CONCURRENCY_LIMIT) /\
  CONCURRENCY_LIMIT = 6 /\
  active s = Z.of_nat (length (running (tasks s))) /\
  (forall ev i e,
     tasks s !! i ≠ Some (Running e) ->
     tasks (step result s ev) !! i = Some (Running e) ->
     active s < CONCURRENCY_LIMIT /\ active (step result s ev) = active s + 1) /\
  (forall i e,
     tasks s !! i = Some (Running e) ->
     active (step result s (Settle i)) = active s - 1 /\
     tasks (step result s (Settle i)) !! i = Some Finished).
Proof.
  intros s. destruct (run_inv evs) as [Ha Hl _ _ _ _ _ _ _]. fold s in Ha, Hl.
  split; [lia|]. split; [reflexivity|]. split; [exact Ha|]. split.
  - intros ev i e Hold Hnew. destruct ev as [j | i' | i']; simpl in Hnew |- *.
    + eapply enter_starts in Hnew; [exact Hnew|]. simpl.
      intros Hi. apply lookup_app_Some in Hi as [Hi | [_ Hi]]; [done|].
      destruct (i - length (tasks s))%nat; simpl in Hi; [done|].
      by rewrite lookup_nil in Hi.
    + destruct (tasks s !! i') as [[| | |]|] eqn:Hi'; try done.
      eapply enter_starts in Hnew; done.
    + destruct (tasks s !! i') as [[|e'| |]|] eqn:Hi'; try done.
      simpl in Hnew.
      apply list_lookup_insert_Some in Hnew as [(_ & ? & _) | (_ & ?)]; done.
  - intros i e Hi. simpl. rewrite Hi. simpl. split; [reflexivity|].
    apply list_lookup_insert_eq. by eapply lookup_lt_Some.
Qed.

(** C3: the promise returned by a call of [runJob] is never rejected,
    whatever happens; when the job of an executing entry throws or rejects,
    the promise of that entry is fulfilled with [null], and when it returns
    a value the promise is fulfilled with that value. *)
Theorem runJob_never_rejects (evs : list (Runner.event J)) :
  let s := run result evs in
  (forall k, promises s !! k ≠ Some (Some Rejected)) /\
  (forall i e,
     tasks s !! i = Some (Running e) ->
     result (job e) = Thrown ->
     promises (step result s (Settle i)) !! resolve e = Some (Some (Fulfilled VNull))) /\
  (forall i e v,
     tasks s !! i = Some (Running e) ->
     result (job e) = Returned v ->
     promises (step result s (Settle i)) !! resolve e = Some (Some (Fulfilled v))).
Proof.
  intros s. pose proof (run_inv evs) as Hinv. fold s in Hinv.
  assert (Hsettle : forall i e,
    tasks s !! i = Some (Running e) ->
    promises (step result s (Settle i)) !! resolve e
    = Some (Some (settlement (result (job e))))).
  { intros i e Hi. destruct (settle_inv evs s i e Hi Hinv) as (Hpend & _ & _).
    simpl. rewrite Hi. simpl. rewrite settle_pending by done.
    apply list_lookup_insert_eq. by eapply lookup_lt_Some. }
  split; [|split].
  - intros k Hk. destruct (inv_settled _ _ _ Hinv k Rejected Hk) as (j & _ & Hj).
    by destruct (result j).
  - intros i e Hi Hr. rewrite (Hsettle i e Hi), Hr. reflexivity.
  - intros i e v Hi Hr. rewrite (Hsettle i e Hi), Hr. reflexivity.
Qed.


End RunnerFacts.

(** In the burst, the eighth call executes the entry that the seventh call
    pushed, and it is the promise of the seventh call that gets the seventh
    job's value. *)
Example burst_runs_foreign_entry :
  let s := run number_job burst in
  tasks s !! 6%nat = Some Waiting /\
  tasks s !! 7%nat = Some (Running {| job := 16%nat; resolve := 6 |}) /\
  queue s = [{| job := 17%nat; resolve := 7 |}] /\
  active s = 6 /\
  promises (run number_job (burst ++ [Settle 7])) !! 6%nat
  = Some (Some (Fulfilled (VNum 16))) /\
  promises (run number_job (burst ++ [Settle 7])) !! 7%nat = Some None.
Proof. repeat split. Qed.


Lemma runJob_never_rejects_witness :
  tasks (run number_job burst) !! 1%nat
    = Some (Running {| job := 11%nat; resolve := 1 |}) /\
  promises (step number_job (run number_job burst) (Settle 1)) !! 1%nat
    = Some (Some (Fulfilled VNull)).
Proof.
  split; [reflexivity|].
  apply (proj1 (proj2 (runJob_never_rejects number_job burst)) 1%nat
           {| job := 11%nat; resolve := 1 |}); reflexivity.
Defined.

Lemma active_never_exceeds_limit_witness :
  tasks (run number_job burst) !! 7%nat
    = Some (Running {| job := 16%nat; resolve := 6 |}) /\
  active (step number_job (run number_job burst) (Settle 7))
    = active (run number_job burst) - 1.
Proof.
  split; [reflexivity|].
  apply (proj2 (proj2 (proj2 (proj2 (active_never_exceeds_limit number_job burst))))
           7%nat {| job := 16%nat; resolve := 6 |}).
  reflexivity.
Defined.

(** *** More on the queue: order, conservation, progress *)

Section RunnerOrder.

Context {J : Type} (result : J -> outcome).

Implicit Types (s : state J) (e : entry J) (ts : list (task J))
  (evs : list (Runner.event J)).

Lemma waiting_le ts : (waiting ts <= length ts)%nat.
Proof. apply length_filter. Qed.

Lemma enter_order i s :
  (length (queue s) <= length (tasks s))%nat ->
  resolve <$> queue s
    = seq (length (tasks s) - length (queue s)) (length (queue s)) ->
  resolve <$> queue (enter i s)
    = seq (length (tasks (enter i s)) - length (queue (enter i s)))
          (length (queue (enter i s))).
Proof.
  intros Hle Hord. unfold enter.
  destruct (CONCURRENCY_LIMIT <=? active s); simpl.
  { by rewrite length_insert. }
  destruct (queue s) as [|e q] eqn:Hq; cbn [queue tasks length fmap list_fmap] in *.
  { by rewrite length_insert. }
  rewrite length_insert. injection Hord as _ Hord. rewrite Hord.
  f_equal. lia.
Qed.

Lemma run_order evs :
  resolve <$> queue (run result evs)
    = seq (length (tasks (run result evs)) - length (queue (run result evs)))
          (length (queue (run result evs))).
Proof.
  induction evs as [|ev evs IH] using rev_ind; [reflexivity|].
  rewrite run_snoc. set (s := run result evs) in *.
  pose proof (run_inv result evs) as Hinv. fold s in Hinv.
  assert (Hle : (length (queue s) <= length (tasks s))%nat).
  { rewrite (inv_queue _ _ _ Hinv). apply waiting_le. }
  destruct ev as [j | i | i]; simpl.
  - apply enter_order; simpl; rewrite !length_app; simpl; [lia|].
    rewrite fmap_app, IH. simpl.
    replace (length (tasks s) + 1 - (length (queue s) + 1))%nat
      with (length (tasks s) - length (queue s))%nat by lia.
    rewrite Nat.add_1_r, seq_S. do 2 f_equal. lia.
  - destruct (tasks s !! i) as [[| | |]|]; try exact IH.
    by apply enter_order.
  - destruct (tasks s !! i) as [[|e| |]|]; try exact IH.
    simpl. by rewrite length_insert.
Qed.

(** X1: the queue is first in, first out.  After any sequence of events the
    queue holds exactly the most recent submissions, in the order of their
    submission, each entry pairing the job and the promise of its call;
    every job that is executing was submitted before every job that is
    still queued. *)
Theorem queue_is_fifo (evs : list (Runner.event J)) :
  let s := run result evs in
  resolve <$> queue s
    = seq (length (submitted evs) - length (queue s)) (length (queue s)) /\
  (forall e, e ∈ queue s -> submitted evs !! resolve e = Some (job e)) /\
  (forall e, e ∈ running (tasks s) ->
     (resolve e < length (submitted evs) - length (queue s))%nat).
Proof.
  intros s. pose proof (run_inv result evs) as Hinv. fold s in Hinv.
  pose proof (run_order evs) as Hord. fold s in Hord.
  destruct Hinv as [_ _ _ _ Hsub Hnodup Hpend _ _].
  rewrite Hsub. split; [exact Hord|]. split.
  - intros e He. apply Hpend. unfold inflight. apply elem_of_app. auto.
  - intros e He.
    assert (Hin : e ∈ inflight s) by (unfold inflight; apply elem_of_app; auto).
    destruct (Hpend e Hin) as [_ Hlt]. apply lookup_lt_Some in Hlt.
    rewrite Hsub in Hlt.
    unfold inflight in Hnodup. rewrite fmap_app in Hnodup.
    apply NoDup_app in Hnodup as (_ & Hdisj & _).
    destruct (decide (resolve e < length (tasks s) - length (queue s))%nat)
      as [|Hge]; [done|].
    exfalso. apply (Hdisj (resolve e)).
    + rewrite Hord. apply elem_of_seq. lia.
    + by apply list_elem_of_fmap_2.
Qed.

(** X2: every call that is waiting has one entry in the queue, so
    [queue.shift()] never comes back empty-handed and no call crashes;
    there is one task and one promise per submission. *)
Theorem queue_matches_waiting (evs : list (Runner.event J)) :
  let s := run result evs in
  length (queue s) = waiting (tasks s) /\
  (Crashed ∉ tasks s) /\
  length (tasks s) = length (submitted evs) /\
  length (promises s) = length (submitted evs).
Proof.
  intros s. destruct (run_inv result evs) as [_ _ Hq Hp Hs _ _ _ Hc].
  fold s in Hq, Hp, Hs, Hc. repeat split; try done; congruence.
Qed.

(** X3: when the timer of a waiting call fires, the call goes back to sleep
    and nothing changes if the limit is reached; otherwise it takes the
    head of the queue, which is the oldest submission not yet started
    (its own or not), and starts that job. *)
Theorem wake_starts_oldest (evs : list (Runner.event J)) (i : nat) :
  let s := run result evs in
  tasks s !! i = Some Waiting ->
  (CONCURRENCY_LIMIT <= active s -> step result s (Wake i) = s) /\
  (active s < CONCURRENCY_LIMIT ->
   exists e q,
     queue s = e :: q /\
     resolve e = (length (submitted evs) - length (queue s))%nat /\
     submitted evs !! resolve e = Some (job e) /\
     step result s (Wake i)
     = {| queue := q; active := active s + 1;
          tasks := <[i := Running e]> (tasks s); promises := promises s |}).
Proof.
  intros s Hi. pose proof (run_inv result evs) as Hinv. fold s in Hinv.
  pose proof (run_order evs) as Hord. fold s in Hord.
  rewrite (inv_submitted _ _ _ Hinv).
  simpl. rewrite Hi. unfold enter. split.
  - intros Hfull. apply Z.leb_le in Hfull. rewrite Hfull.
    rewrite list_insert_id by done. by destruct s.
  - intros Hfree. apply Z.leb_gt in Hfree. rewrite Hfree.
    pose proof (waiting_positive _ _ Hi) as Hpos.
    rewrite <- (inv_queue _ _ _ Hinv) in Hpos.
    assert (Hjob : forall e, e ∈ queue s -> submitted evs !! resolve e = Some (job e)).
    { intros e He. apply (inv_pending _ _ _ Hinv). unfold inflight.
      apply elem_of_app. auto. }
    destruct (queue s) as [|e q] eqn:Hq; simpl in Hpos; [lia|].
    exists e, q. split; [done|]. simpl in Hord. injection Hord as He _.
    split; [exact He|]. split; [|done].
    apply Hjob. apply elem_of_cons. auto.
Qed.

Lemma enter_inflight i s :
  tasks s !! i = Some Waiting ->
  length (queue s) = waiting (tasks s) ->
  inflight (enter i s) ≡ₚ inflight s.
Proof.
  intros Hi Hlen. unfold enter.
  destruct (CONCURRENCY_LIMIT <=? active s).
  { unfold inflight. simpl. by rewrite list_insert_id. }
  pose proof (waiting_positive _ _ Hi) as Hpos. rewrite <- Hlen in Hpos.
  destruct (queue s) as [|e q] eqn:Hq; simpl in Hpos; [lia|].
  destruct (start_running (tasks s) i e Hi) as (Hrun & _).
  unfold inflight. simpl. rewrite Hq, Hrun. simpl.
  by rewrite <- Permutation_middle.
Qed.

Lemma run_pending_inflight evs k :
  promises (run result evs) !! k = Some None ->
  k ∈ resolve <$> inflight (run result evs).
Proof.
  revert k. induction evs as [|ev evs IH] using rev_ind; intros k.
  { simpl. by rewrite lookup_nil. }
  rewrite run_snoc. set (s := run result evs) in *.
  pose proof (run_inv result evs) as Hinv. fold s in Hinv.
  destruct ev as [j | i | i]; simpl.
  - pose proof (push_inv result evs s j Hinv) as Hpush.
    rewrite enter_promises. simpl. intros Hk.
    rewrite enter_inflight; simpl.
    2:{ rewrite lookup_app_r by lia. by rewrite Nat.sub_diag. }
    2:{ exact (inv_queue _ _ _ Hpush). }
    unfold inflight. simpl. rewrite running_app. simpl.
    rewrite app_nil_r, <- app_assoc. simpl.
    rewrite <- Permutation_middle, fmap_cons. simpl.
    apply elem_of_cons.
    destruct (decide (k < length (promises s))%nat) as [Hlt | Hge].
    + right. apply IH. by rewrite lookup_app_l in Hk.
    + left. apply lookup_lt_Some in Hk. rewrite length_app in Hk. simpl in Hk.
      rewrite <- (inv_promises _ _ _ Hinv). lia.
  - destruct (tasks s !! i) as [[| | |]|] eqn:Hi; try apply IH.
    rewrite enter_promises, enter_inflight; [apply IH | done |].
    exact (inv_queue _ _ _ Hinv).
  - destruct (tasks s !! i) as [[|e| |]|] eqn:Hi; try apply IH.
    simpl. intros Hk.
    destruct (settle_inv result evs s i e Hi Hinv) as (Hpend & _ & _).
    rewrite settle_pending in Hk by done.
    destruct (decide (k = resolve e)) as [-> | Hne].
    { rewrite list_lookup_insert_eq in Hk by (by eapply lookup_lt_Some). done. }
    rewrite list_lookup_insert_ne in Hk by done.
    apply IH in Hk.
    destruct (stop_running (tasks s) i e Hi) as (Hrun & _).
    unfold inflight in Hk |- *. simpl.
    rewrite Hrun, <- Permutation_middle, fmap_cons in Hk.
    apply elem_of_cons in Hk as [? | Hk]; done.
Qed.

(** X4: no job is lost.  The promise of a call is pending exactly while the
    entry of that call is in the queue or executing; and then it is there
    only once. *)
Theorem pending_iff_inflight (evs : list (Runner.event J)) (k : nat) :
  let s := run result evs in
  (promises s !! k = Some None <-> k ∈ resolve <$> inflight s) /\
  NoDup (resolve <$> inflight s).
Proof.
  intros s. pose proof (run_inv result evs) as Hinv. fold s in Hinv.
  split; [split|].
  - apply run_pending_inflight.
  - intros Hk. apply list_elem_of_fmap in Hk as (e & -> & He).
    by destruct (inv_pending _ _ _ Hinv e He).
  - exact (inv_nodup _ _ _ Hinv).
Qed.

End RunnerOrder.

Lemma wake_starts_oldest_witness :
  let evs := [Submit 10%nat; Submit 11%nat; Submit 12%nat; Submit 13%nat;
              Submit 14%nat; Submit 15%nat; Submit 16%nat; Submit 17%nat;
              Settle 3] in
  tasks (run number_job evs) !! 7%nat = Some Waiting /\
  exists e q,
    queue (run number_job evs) = e :: q /\
    resolve e = 6%nat /\
    tasks (step number_job (run number_job evs) (Wake 7)) !! 7%nat
      = Some (Running e).
Proof.
  intros evs. split; [reflexivity|].
  destruct (wake_starts_oldest number_job evs 7) as [_ H]; [reflexivity|].
  destruct H as (e & q & Hq & He & _ & Hstep); [reflexivity|].
  exists e, q. split; [exact Hq|]. split; [exact He|].
  rewrite Hstep. reflexivity.
Defined.

(** *** More on the resolver *)

Lemma normalize_cases chap :
  normalize chap = VStr "1" \/ (normalize chap = chap /\ is_nullish chap = false).
Proof.
  unfold normalize. destruct (is_nullish chap) eqn:Hn; simpl; [auto|].
  destruct (regex_test one_shot (to_string chap)); auto.
Qed.

Lemma normalize_not_nullish chap : is_nullish (normalize chap) = false.
Proof. destruct (normalize_cases chap) as [-> | [-> H]]; [reflexivity | exact H]. Qed.

Lemma normalize_question chap : normalize chap = VStr "?" <-> chap = VStr "?".
Proof.
  split.
  - destruct (normalize_cases chap) as [-> | [-> _]]; [discriminate | auto].
  - intros ->. reflexivity.
Qed.

Lemma strict_eq_str_true v s : strict_eq_str v s = true <-> v = VStr s.
Proof.
  destruct v; simpl; try (split; [discriminate | intros [=]]).
  rewrite String.eqb_eq. split; [intros -> | intros [=]]; auto.
Qed.

(** X5: whatever the network does, one call of [fetchLatestChapter] hands a
    single request to [runJob] and never takes the back-off sleep of line
    101 (how long the request waits for a free slot inside [runJob] is not
    part of this trace); it returns [null] exactly when that request fails,
    and the normalized chapter when it succeeds; what the network would
    answer to later requests does not matter. *)
Theorem fetchLatestChapter_first_answer (net : nat -> response) :
  snd (fetchLatestChapter net) = [Attempt 0%nat] /\
  (fst (fetchLatestChapter net) = VNull <-> failing (net 0%nat)) /\
  (forall chap, net 0%nat = OnLoad 200 (Chapter chap) ->
     fst (fetchLatestChapter net) = normalize chap) /\
  (forall net', net' 0%nat = net 0%nat ->
     fetchLatestChapter net' = fetchLatestChapter net).
Proof.
  unfold fetchLatestChapter, SHORT_RETRY_COUNT, failing.
  rewrite attempts_first_iteration. simpl.
  assert (Hok : forall chap, doRequest (OnLoad 200 (Chapter chap))
                             = Returned (normalize chap)).
  { intros chap. simpl. unfold nullish_or.
    by rewrite normalize_not_nullish. }
  split; [reflexivity|]. split; [|split].
  - destruct (net 0%nat) as [status [|chap]| | |] eqn:Hnet; simpl; try done.
    + by destruct (negb (status =? 200)).
    + destruct (status =? 200) eqn:Hs; simpl; [|done].
      unfold nullish_or. rewrite normalize_not_nullish.
      pose proof (normalize_not_nullish chap) as Hn.
      split; [|done]. intros H. rewrite H in Hn. done.
  - intros chap ->. by rewrite Hok.
  - intros net' Heq. rewrite Heq.
    by destruct (doRequest (net 0%nat)).
Qed.

(** X6: normalization maps no field to [null] or [undefined], so the fallback
    "?" of line 90 is never taken and a request that succeeds never
    resolves with a nullish value; normalizing twice changes nothing; and
    the only field that a successful request hands over as "?", which
    [tryFillBadge] takes for a failure, is the string "?" itself. *)
Theorem doRequest_success_value (chap : value) :
  doRequest (OnLoad 200 (Chapter chap)) = Returned (normalize chap) /\
  is_nullish (normalize chap) = false /\
  normalize (normalize chap) = normalize chap /\
  (succeeds (normalize chap) = false <-> chap = VStr "?").
Proof.
  pose proof (normalize_not_nullish chap) as Hn.
  split; [|split; [exact Hn|split]].
  - simpl. unfold nullish_or. by rewrite Hn.
  - destruct (normalize_cases chap) as [-> | [H _]]; [reflexivity|].
    by rewrite !H.
  - unfold succeeds. rewrite Hn, andb_true_r, negb_false_iff.
    rewrite strict_eq_str_true. apply normalize_question.
Qed.

(** *** More on the sessions *)

Lemma retry_prefix_timeouts id k n :
  timeouts (retry_prefix id k n) = delay <$> seq k n.
Proof.
  revert k. induction n as [|n IH]; intros k; [reflexivity|].
  simpl. unfold timeouts in *. simpl. by rewrite IH.
Qed.

Lemma retry_prefix_resolves id k n :
  resolves (retry_prefix id k n) = seq k n.
Proof.
  revert k. induction n as [|n IH]; intros k; [reflexivity|].
  simpl. unfold resolves in *. simpl. by rewrite IH.
Qed.

Lemma after_retries_fields k n c :
  title_badge (after_retries k n c) = title_badge c /\
  has_cover (after_retries k n c) = has_cover c /\
  cover_position (after_retries k n c) = cover_position c /\
  href (after_retries k n c) = href c /\
  display (after_retries k n c) = display c /\
  (n = 0%nat -> after_retries k n c = c) /\
  ((0 < n)%nat ->
     badge (after_retries k n c) = Some ELLIPSIS /\
     chap (after_retries k n c) = VStr "" /\
     timer (after_retries k n c) = Some (delay (k + n - 1))).
Proof.
  revert k c. induction n as [|n IH]; intros k c.
  { repeat split; try done; lia. }
  simpl. destruct (IH (S k) (set_timer (LONG_RETRY_BASE * 2 ^ Z.of_nat k)
             (set_chap (VStr "") (set_badge ELLIPSIS c))))
    as (H1 & H2 & H3 & H4 & H5 & H6 & H7).
  repeat split; try done; try lia.
  - destruct n; [by rewrite H6 | by apply H7; lia].
  - destruct n; [by rewrite H6 | by apply H7; lia].
  - destruct n.
    + rewrite H6 by done. simpl. unfold delay. do 3 f_equal. lia.
    + destruct H7 as (_ & _ & ->); [lia|]. do 2 f_equal. lia.
Qed.

(** A session from the step [k] on, whatever surrounds the card: some
    retries, then a last step. *)
Lemma tryFillBadge_outcome E id fuel k c :
  (LONG_RETRY_MAX - k < fuel)%nat ->
  exists n o,
    (n <= LONG_RETRY_MAX - k)%nat /\
    (forall j, (k <= j < k + n)%nat -> retried E j) /\
    last_step E (k + n) o /\
    tryFillBadge fuel E c id k
    = Some (final_card o (after_retries k n c),
            retry_prefix id k n ++ final_events id (k + n) o).
Proof.
  revert k c. induction fuel as [|fuel IH]; intros k c Hfuel; [lia|].
  simpl. destruct (contains E k) eqn:Hlive; simpl.
  2:{ exists 0%nat, Cancelled. rewrite Nat.add_0_r. simpl.
      repeat split; try done; try lia. }
  destruct (negb (strict_eq_str (fetched E k) "?")
            && negb (is_nullish (fetched E k))) eqn:Hok.
  { exists 0%nat, (ResolvedWith (fetched E k) (minChapters E k)).
    rewrite Nat.add_0_r. simpl. repeat split; try done; try lia. }
  destruct (k <? LONG_RETRY_MAX)%nat eqn:Hlt.
  2:{ apply Nat.ltb_ge in Hlt. exists 0%nat, GaveUp.
      rewrite Nat.add_0_r. simpl. repeat split; try done; try lia. }
  apply Nat.ltb_lt in Hlt.
  destruct (IH (S k) (set_timer (LONG_RETRY_BASE * 2 ^ Z.of_nat k)
                        (set_chap (VStr "") (set_badge ELLIPSIS c))))
    as (n & o & Hn & Hretry & Hlast & ->); [lia|].
  exists (S n), o. replace (k + S n)%nat with (S k + n)%nat by lia.
  split; [lia|]. split; [|split; [exact Hlast | reflexivity]].
  intros j Hj. destruct (decide (j = k)) as [-> | Hne].
  - split; assumption.
  - apply Hretry. lia.
Qed.

Lemma tryFillBadge_retries E id n :
  forall k fuel c,
    (forall j, (k <= j < k + n)%nat -> retried E j) ->
    (k + n <= LONG_RETRY_MAX)%nat ->
    tryFillBadge (n + fuel) E c id k =
    match tryFillBadge fuel E (after_retries k n c) id (k + n) with
    | Some (c', tr) => Some (c', retry_prefix id k n ++ tr)
    | None => None
    end.
Proof.
  induction n as [|n IH]; intros k fuel c Hretry Hmax.
  { rewrite Nat.add_0_r. simpl.
    by destruct (tryFillBadge fuel E c id k) as [[c' tr]|]. }
  destruct (Hretry k) as [Hlive Hfail]; [lia|]. unfold succeeds in Hfail.
  simpl. rewrite Hlive, Hfail. simpl.
  replace (k <? LONG_RETRY_MAX)%nat with true
    by (symmetry; apply Nat.ltb_lt; lia).
  rewrite (IH (S k)); [|intros j Hj; apply Hretry; lia | lia].
  replace (S k + n)%nat with (k + S n)%nat by lia.
  by destruct (tryFillBadge fuel E _ id (k + S n)) as [[c' tr]|].
Qed.

(** X7: every session started with [longTry = 0] ends, and in one of three
    ways.  For some [n] up to [LONG_RETRY_MAX], the steps 0 to [n-1] each
    found the card in the page, got no chapter and set a timer; step [n]
    then either found the card gone (nothing more is done), or got a
    chapter (badge and [dataset.chap] take its string form and the filter
    is applied with the threshold of that moment), or, being step
    [LONG_RETRY_MAX], got none again (the badge shows "?").  The trace has
    no other event. *)
Theorem session_outcome (fuel : nat) (E : env) (c : card) (id : string) :
  (LONG_RETRY_MAX < fuel)%nat ->
  exists n o,
    (n <= LONG_RETRY_MAX)%nat /\
    (forall j, (j < n)%nat -> retried E j) /\
    last_step E n o /\
    tryFillBadge fuel E c id 0
    = Some (final_card o (after_retries 0 n c),
            retry_prefix id 0 n ++ final_events id n o).
Proof.
  intros Hfuel.
  destruct (tryFillBadge_outcome E id fuel 0 c) as (n & o & Hn & Hr & Hl & Hrun);
    [lia|].
  exists n, o. rewrite Nat.sub_0_r in Hn. split; [exact Hn|].
  split; [|done]. intros j Hj. apply Hr. lia.
Qed.

Lemma session_outcome_witness :
  let E := {| contains := fun _ => true;
              fetched := fun k => if (k <? 2)%nat then VNull else VStr "12";
              minChapters := fun _ => Fin 20 |} in
  exists n o,
    last_step E n o /\
    tryFillBadge 7 E (fresh_card true None) "abc" 0
    = Some (final_card o (after_retries 0 n (fresh_card true None)),
            retry_prefix "abc" 0 n ++ final_events "abc" n o).
Proof.
  intros E.
  destruct (session_outcome 7 E (fresh_card true None) "abc")
    as (n & o & _ & _ & Hl & Hrun); [unfold LONG_RETRY_MAX; lia|].
  exists n, o. split; assumption.
Defined.

Lemma total_delays n :
  (n <= LONG_RETRY_MAX)%nat -> total (delay <$> seq 0 n) <= 315000.
Proof.
  unfold LONG_RETRY_MAX. intros Hn.
  do 7 (destruct n as [|n]; [vm_compute; discriminate|]). lia.
Qed.

Lemma final_card_timer o c : timer (final_card o c) = timer c.
Proof. by destruct o. Qed.

(** X8: whatever surrounds the card, a session started with [longTry = 0]
    calls the resolver at most [LONG_RETRY_MAX + 1] = 7 times, in the steps
    0, 1, 2, ... without a gap, sets at most 6 timers, whose delays are
    the first terms of 5000, 10000, 20000, ... and add up to at most
    315000 ms; a timer is only set after a call of the resolver; and the
    handle kept in [card._mdexTimer] is never cleared: at the end it is that
    of the last timer set, if any. *)
Theorem session_bounds (fuel : nat) (E : env) (c : card) (id : string) :
  (LONG_RETRY_MAX < fuel)%nat ->
  exists c' tr,
    tryFillBadge fuel E c id 0 = Some (c', tr) /\
    resolves tr = seq 0 (length (resolves tr)) /\
    (length (resolves tr) <= S LONG_RETRY_MAX)%nat /\
    timeouts tr = delay <$> seq 0 (length (timeouts tr)) /\
    (length (timeouts tr) <= LONG_RETRY_MAX)%nat /\
    (length (timeouts tr) <= length (resolves tr) <= S (length (timeouts tr)))%nat /\
    total (timeouts tr) <= 315000 /\
    timer c' = match last (timeouts tr) with
               | Some d => Some d
               | None => timer c
               end.
Proof.
  intros Hfuel.
  destruct (tryFillBadge_outcome E id fuel 0 c) as (n & o & Hn & _ & _ & Hrun);
    [lia|].
  simpl in Hrun. eexists _, _. split; [exact Hrun|].
  assert (Ht : timeouts (retry_prefix id 0 n ++ final_events id n o)
               = delay <$> seq 0 n).
  { unfold timeouts. rewrite omap_app. fold (timeouts (retry_prefix id 0 n)).
    rewrite retry_prefix_timeouts. destruct o; simpl; by rewrite app_nil_r. }
  assert (Hr : exists m, (n <= m <= S n)%nat /\
               resolves (retry_prefix id 0 n ++ final_events id n o) = seq 0 m).
  { unfold resolves. rewrite omap_app. fold (resolves (retry_prefix id 0 n)).
    rewrite retry_prefix_resolves. destruct o; simpl.
    - exists n. rewrite app_nil_r. split; [lia | done].
    - exists (S n). rewrite seq_S. split; [lia | done].
    - exists (S n). rewrite seq_S. split; [lia | done]. }
  destruct Hr as (m & Hm & Hr). rewrite Ht, Hr.
  rewrite !length_fmap, !length_seq.
  repeat split; try done; try lia.
  - by apply total_delays.
  - rewrite final_card_timer.
    destruct (after_retries_fields 0 n c) as (_ & _ & _ & _ & _ & H0 & Hpos).
    destruct n as [|n].
    + by rewrite H0.
    + destruct Hpos as (_ & _ & ->); [lia|].
      rewrite seq_S, fmap_snoc, last_snoc. do 2 f_equal. lia.
Qed.

Lemma session_bounds_witness :
  let E := {| contains := fun k => (k <? 3)%nat; fetched := fun _ => VNull;
              minChapters := fun _ => Fin 0 |} in
  exists c' tr,
    tryFillBadge 9 E (fresh_card true None) "abc" 0 = Some (c', tr) /\
    (length (resolves tr) <= S LONG_RETRY_MAX)%nat /\
    total (timeouts tr) <= 315000.
Proof.
  intros E.
  destruct (session_bounds 9 E (fresh_card true None) "abc")
    as (c' & tr & Hrun & _ & Hr & _ & _ & _ & Ht & _);
    [unfold LONG_RETRY_MAX; lia|].
  exists c', tr. auto.
Defined.

(** X9: if the card stays in the page, the resolver delivers no chapter in
    the steps 0 to [k-1] and delivers [v] (neither "?" nor nullish) in step
    [k], for a [k] up to [LONG_RETRY_MAX], then the session calls the
    resolver [k+1] times, sets the [k] timers of the steps before, and ends
    with the badge and [dataset.chap] holding the string form of [v] and the
    card hidden or shown by the threshold of that moment; nothing is
    scheduled after the success. *)
Theorem session_resolves_at (fuel : nat) (E : env) (c : card) (id : string)
    (k : nat) (v : value) :
  (k < fuel)%nat ->
  (k <= LONG_RETRY_MAX)%nat ->
  (forall j, (j < k)%nat -> retried E j) ->
  contains E k = true ->
  fetched E k = v ->
  succeeds v = true ->
  exists c',
    tryFillBadge fuel E c id 0
    = Some (c', retry_prefix id 0 k ++ [Resolve id k]) /\
    resolves (retry_prefix id 0 k ++ [Resolve id k]) = seq 0 (S k) /\
    timeouts (retry_prefix id 0 k ++ [Resolve id k]) = delay <$> seq 0 k /\
    badge c' = Some (to_string v) /\
    chap c' = VStr (to_string v) /\
    (hidden c' <->
       gt (minChapters E k) zero = true /\
       isNaN (parseFloat (to_string v)) = false /\
       lt (parseFloat (to_string v)) (minChapters E k) = true) /\
    (display c' = "none" \/ display c' = "").
Proof.
  intros Hfuel Hk Hretry Hlive Hv Hok.
  assert (Hres : resolves (retry_prefix id 0 k ++ [Resolve id k]) = seq 0 (S k)).
  { unfold resolves. rewrite omap_app. fold (resolves (retry_prefix id 0 k)).
    by rewrite retry_prefix_resolves, seq_S. }
  assert (Htim : timeouts (retry_prefix id 0 k ++ [Resolve id k])
                 = delay <$> seq 0 k).
  { unfold timeouts. rewrite omap_app. fold (timeouts (retry_prefix id 0 k)).
    rewrite retry_prefix_timeouts. simpl. by rewrite app_nil_r. }
  rewrite Hres, Htim.
  replace fuel with (k + S (fuel - S k))%nat by lia.
  rewrite (tryFillBadge_retries E id k 0); [|intros j Hj; apply Hretry; lia | lia].
  cbn [tryFillBadge Nat.add]. rewrite Hlive. cbn [negb].
  rewrite Hv. unfold succeeds in Hok. rewrite Hok.
  eexists. split; [reflexivity|]. split; [reflexivity|]. split; [reflexivity|].
  split; [reflexivity|]. split; [reflexivity|].
  unfold hidden. rewrite display_applyVisibility.
  cbn [chap set_chap set_badge to_string].
  set (n := parseFloat (to_string v)). set (N := minChapters E k).
  split.
  - destruct (isNaN n), (gt N zero), (lt n N); simpl;
      (split; [intros H | intros (H1 & H2 & H3)]); repeat split; congruence.
  - destruct (_ && _ && _); auto.
Qed.

Lemma session_resolves_at_witness :
  let E := {| contains := fun _ => true;
              fetched := fun k => if (k <? 5)%nat then VNull else VStr "87.5";
              minChapters := fun _ => Fin 100 |} in
  exists c',
    tryFillBadge 7 E (fresh_card true None) "abc" 0
    = Some (c', retry_prefix "abc" 0 5 ++ [Resolve "abc" 5]) /\
    badge c' = Some "87.5" /\ hidden c'.
Proof.
  intros E.
  destruct (session_resolves_at 7 E (fresh_card true None) "abc" 5 (VStr "87.5"))
    as (c' & Hrun & _ & _ & Hb & _ & Hh & _);
    try reflexivity; try (unfold LONG_RETRY_MAX; lia).
  - intros j Hj. split; [reflexivity|].
    do 5 (destruct j as [|j]; [reflexivity|]). lia.
  - exists c'. split; [exact Hrun|]. split; [exact Hb|].
    apply Hh. repeat split.
Defined.

(** X10: on top of the resolver as it is, a card costs at most
    [LONG_RETRY_MAX + 1] = 7 requests, one per call of the resolver, whatever
    the network answers and whenever the card leaves the page. *)
Theorem session_requests_bounded (fuel : nat) (net : nat -> nat -> response)
    (live : nat -> bool) (mc : nat -> number) (c : card) (id : string) :
  (LONG_RETRY_MAX < fuel)%nat ->
  exists c' tr,
    tryFillBadge fuel
      {| contains := live;
         fetched := fun k => fst (fetchLatestChapter (net k));
         minChapters := mc |} c id 0 = Some (c', tr) /\
    requests net tr = length (resolves tr) /\
    (requests net tr <= S LONG_RETRY_MAX)%nat.
Proof.
  intros Hfuel.
  set (E := {| contains := live;
               fetched := fun k => fst (fetchLatestChapter (net k));
               minChapters := mc |}).
  destruct (tryFillBadge_outcome E id fuel 0 c) as (n & o & Hn & _ & _ & Hrun);
    [lia|].
  simpl in Hrun. eexists _, _. split; [exact Hrun|].
  assert (Hone : forall ks, sum_list
            ((fun k => attempt_count (snd (fetchLatestChapter (net k)))) <$> ks)
            = length ks).
  { induction ks as [|k ks IH]; [reflexivity|].
    rewrite fmap_cons. change (sum_list (?x :: ?l)) with (x + sum_list l)%nat.
    rewrite IH. unfold fetchLatestChapter, SHORT_RETRY_COUNT.
    by rewrite attempts_first_iteration. }
  unfold requests. rewrite Hone. split; [reflexivity|].
  unfold resolves. rewrite omap_app. fold (resolves (retry_prefix id 0 n)).
  rewrite retry_prefix_resolves, length_app, length_seq.
  destruct o; simpl; lia.
Qed.

Lemma session_requests_bounded_witness :
  exists c' tr,
    tryFillBadge 7
      {| contains := fun _ => true;
         fetched := fun k => fst (fetchLatestChapter (fun _ => OnLoad 503 Unparseable));
         minChapters := fun _ => Fin 0 |} (fresh_card true None) "abc" 0
      = Some (c', tr) /\
    requests (fun _ _ => OnLoad 503 Unparseable) tr = 7%nat.
Proof.
  destruct (session_requests_bounded 7 (fun _ _ => OnLoad 503 Unparseable)
              (fun _ => true) (fun _ => Fin 0) (fresh_card true None) "abc")
    as (c' & tr & Hrun & Hreq & _); [unfold LONG_RETRY_MAX; lia|].
  exists c', tr. split; [exact Hrun|].
  rewrite Hreq. vm_compute in Hrun. injection Hrun as _ <-. reflexivity.
Defined.

(** *** More on the discovery of cards *)

Lemma enhanceCard_returns fuel E ps h c :
  (LONG_RETRY_MAX < fuel)%nat ->
  exists r, enhanceCard fuel E ps h c = Some r.
Proof.
  intros Hfuel. unfold enhanceCard.
  destruct (decide (h ∈ ps)); [eauto|].
  destruct (negb (has_cover _)); [eauto|].
  destruct (negb (truthy _)); [eauto|].
  edestruct (tryFillBadge_returns fuel E) as (c' & tr & ->); [|eauto]. lia.
Qed.

Lemma enhanceCard_facts fuel E ps h c ps' c' tr :
  enhanceCard fuel E ps h c = Some (ps', c', tr) ->
  ps' = {[h]} ∪ ps /\ (h ∈ ps -> tr = []).
Proof.
  unfold enhanceCard. intros Hrun.
  destruct (decide (h ∈ ps)) as [Hin | Hnew].
  - injection Hrun as <- <- <-. split; [set_solver | auto].
  - split; [|done].
    destruct (negb (has_cover (remove_title_badge c))).
    { by injection Hrun as <- _ _. }
    destruct (negb (truthy _)).
    { by injection Hrun as <- _ _. }
    destruct (tryFillBadge _ _ _ _ _) as [[c1 tr1]|]; [|done].
    by injection Hrun as <- _ _.
Qed.

(** X11: [enhanceCard] works on a card once.  With fuel for a whole
    session it returns, having added the handle to the set of processed
    cards and nothing else; on a card that is in the set already it changes
    nothing and calls the resolver never, whatever the fuel; so a second
    call for the same card, whatever has happened in between, is without
    effect. *)
Theorem enhanceCard_once (fuel : nat) (E : env) (ps : gset nat) (h : nat)
    (c : card) :
  (LONG_RETRY_MAX < fuel)%nat ->
  exists ps' c' tr,
    enhanceCard fuel E ps h c = Some (ps', c', tr) /\
    ps' = {[h]} ∪ ps /\
    (h ∈ ps -> ps' = ps /\ c' = c /\ tr = []) /\
    (forall fuel' E' c'', enhanceCard fuel' E' ps' h c'' = Some (ps', c'', [])) /\
    (forall fuel' E' c'',
       h ∈ ps -> enhanceCard fuel' E' ps h c'' = Some (ps, c'', [])).
Proof.
  intros Hfuel.
  destruct (enhanceCard_returns fuel E ps h c Hfuel) as ([[ps' c'] tr] & Hrun).
  exists ps', c', tr. split; [exact Hrun|].
  destruct (enhanceCard_facts _ _ _ _ _ _ _ _ Hrun) as [-> Hold].
  split; [done|]. split; [|split].
  - intros Hin. unfold enhanceCard in Hrun.
    destruct (decide (h ∈ ps)) as [_ | Hnew]; [|done].
    injection Hrun as Hps <- <-. split; [symmetry; exact Hps | done].
  - intros fuel' E' c''. unfold enhanceCard.
    destruct (decide (h ∈ {[h]} ∪ ps)) as [_ | Hnew]; [done|].
    exfalso. apply Hnew, elem_of_union. left. by apply elem_of_singleton.
  - intros fuel' E' c'' Hin. unfold enhanceCard.
    by destruct (decide (h ∈ ps)).
Qed.

Lemma enhanceCard_once_witness :
  let E := {| contains := fun _ => true; fetched := fun _ => VStr "3";
              minChapters := fun _ => Fin 0 |} in
  exists ps' c' tr,
    enhanceCard 7 E ∅ 4%nat (fresh_card true (Some "/title/abc")) = Some (ps', c', tr) /\
    ps' = {[4%nat]} ∪ ∅ /\
    enhanceCard 7 E ps' 4%nat c' = Some (ps', c', []).
Proof.
  intros E.
  destruct (enhanceCard_once 7 E ∅ 4%nat (fresh_card true (Some "/title/abc")))
    as (ps' & c' & tr & Hrun & Hps & _ & Hagain & _);
    [unfold LONG_RETRY_MAX; lia|].
  exists ps', c', tr. split; [exact Hrun|]. split; [exact Hps|]. apply Hagain.
Defined.

Lemma split_no_sep sep a : contains_char sep a = false -> split sep a = [a].
Proof.
  induction a as [|c a IH]; simpl; [done|].
  intros H. apply orb_false_iff in H as [Hc Ha]. by rewrite Hc, IH.
Qed.

Lemma split_app sep a b :
  contains_char sep a = false ->
  split sep (a ++ String sep b)%string = a :: split sep b.
Proof.
  induction a as [|c a IH]; simpl.
  - intros _. by rewrite Ascii.eqb_refl.
  - intros H. apply orb_false_iff in H as [Hc Ha]. by rewrite Hc, IH.
Qed.

Lemma append_empty_r s : (s ++ "")%string = s.
Proof. induction s as [|c s IH]; simpl; [done | by rewrite IH]. Qed.

(** X12: the identifier is the third piece of the link's [href] cut at the
    slashes, whatever the first two pieces are: "abc" for "/title/abc" and
    for "/title/abc/some-name", but the host name for an absolute address
    such as "https://mangadex.org/title/abc"; a session is started exactly
    when that piece is not empty. *)
Theorem mangaId_third_piece (c : card) (a b id rest : string) :
  href c = Some (a ++ String "/" (b ++ String "/" (id ++ rest)))%string ->
  contains_char "/" a = false ->
  contains_char "/" b = false ->
  contains_char "/" id = false ->
  rest = "" \/ (exists r, rest = String "/" r) ->
  mangaId c = VStr id /\
  truthy (mangaId c) = negb (String.eqb id "").
Proof.
  intros Hhref Ha Hb Hid Hrest.
  assert (H : mangaId c = VStr id).
  { unfold mangaId. rewrite Hhref, (split_app _ a), (split_app _ b) by done.
    destruct Hrest as [-> | (r & ->)].
    - by rewrite append_empty_r, split_no_sep.
    - by rewrite split_app. }
  by rewrite H.
Qed.

Lemma mangaId_third_piece_witness :
  mangaId (fresh_card true (Some "/title/abc/some-name")) = VStr "abc" /\
  mangaId (fresh_card true (Some "https://mangadex.org/title/abc"))
    = VStr "mangadex.org".
Proof.
  split.
  - apply (mangaId_third_piece _ "" "title" "abc" "/some-name");
      try reflexivity. right. by exists "some-name".
  - apply (mangaId_third_piece _ "https:" "" "mangadex.org" "/title/abc");
      try reflexivity. right. by exists "title/abc".
Defined.

Lemma applyVisibility_set_display N d c :
  applyVisibility N (set_display d c) = applyVisibility N c.
Proof. reflexivity. Qed.

Lemma refilter_display Ns c : exists d, refilter Ns c = set_display d c.
Proof.
  revert c. induction Ns as [|N Ns IH]; intros c.
  - exists (display c). by destruct c.
  - simpl. destruct (IH (applyVisibility N c)) as (d & ->).
    exists d. reflexivity.
Qed.

(** X13: the filter keeps no memory.  After any series of thresholds, what a
    card shows is what the last threshold alone gives, so a card hidden by
    one threshold comes back with the next one that lets it through; and
    the filter touches nothing but [display]. *)
Theorem refilter_last (Ns : list number) (N : number) (c : card) :
  refilter (Ns ++ [N]) c = applyVisibility N c /\
  chap (refilter Ns c) = chap c /\
  badge (refilter Ns c) = badge c /\
  timer (refilter Ns c) = timer c /\
  href (refilter Ns c) = href c.
Proof.
  destruct (refilter_display Ns c) as (d & Hd).
  split; [|by rewrite Hd].
  unfold refilter in *. rewrite fold_left_app. simpl. rewrite Hd.
  apply applyVisibility_set_display.
Qed.

Lemma enhance_each_returns fuel E hs w :
  (LONG_RETRY_MAX < fuel)%nat ->
  exists w', enhance_each fuel E hs w = Some w'.
Proof.
  intros Hfuel. revert w. induction hs as [|h hs IH]; intros w; simpl; [eauto|].
  destruct (enhanceCard_returns fuel (E h) (processed w) h (dom w h) Hfuel)
    as ([[ps c] tr] & ->).
  apply IH.
Qed.

Lemma enhance_each_facts fuel E hs w w' :
  enhance_each fuel E hs w = Some w' ->
  processed w ⊆ processed w' /\
  (forall h, h ∈ hs -> h ∈ processed w') /\
  (exists l, log w' = log w ++ l /\
             forall p, p ∈ l -> p.1 ∈ hs /\ p.1 ∉ processed w).
Proof.
  revert w. induction hs as [|h hs IH]; intros w; simpl.
  { intros [= <-]. split; [done|]. split.
    - intros h Hh. by apply elem_of_nil in Hh.
    - exists []. rewrite app_nil_r. split; [done|].
      intros p Hp. by apply elem_of_nil in Hp. }
  destruct (enhanceCard fuel (E h) (processed w) h (dom w h))
    as [[[ps c] tr]|] eqn:Hone; [|done].
  destruct (enhanceCard_facts _ _ _ _ _ _ _ _ Hone) as [-> Hold].
  intros Hrest. destruct (IH _ Hrest) as (Hsub & Hall & l & Hlog & Hl).
  simpl in *. split; [set_solver|]. split.
  - intros k Hk. apply elem_of_cons in Hk as [-> | Hk]; [set_solver | auto].
  - exists (((fun e => (h, e)) <$> tr) ++ l). rewrite Hlog, app_assoc.
    split; [done|]. intros p Hp. apply elem_of_app in Hp as [Hp | Hp].
    + apply list_elem_of_fmap in Hp as (e & -> & He). simpl.
      split; [apply elem_of_cons; auto|].
      intros Hin. rewrite (Hold Hin) in He. by apply elem_of_nil in He.
    + destruct (Hl p Hp) as [H1 H2]. split; [apply elem_of_cons; auto|].
      set_solver.
Qed.

Lemma enhance_each_seen fuel E hs w :
  (forall h, h ∈ hs -> h ∈ processed w) ->
  exists w', enhance_each fuel E hs w = Some w' /\
             processed w' = processed w /\ log w' = log w /\
             forall k, dom w' k = dom w k.
Proof.
  revert w. induction hs as [|h hs IH]; intros w Hall; simpl; [eauto|].
  unfold enhanceCard.
  destruct (decide (h ∈ processed w)) as [_ | Hnew].
  2:{ exfalso. apply Hnew, Hall, elem_of_cons. auto. }
  edestruct IH as (w' & -> & Hp & Hl & Hd).
  { simpl. intros k Hk. apply Hall, elem_of_cons. auto. }
  exists w'. simpl in *. rewrite app_nil_r in Hl.
  split; [done|]. split; [done|]. split; [done|].
  intros k. rewrite Hd. by destruct (decide (k = h)) as [-> | ].
Qed.

Lemma added_cards_subtree n : added_cards n = subtree_cards n.
Proof. by destruct n. Qed.

Lemma observed_covers muts m n h :
  m ∈ muts -> n ∈ m -> h ∈ subtree_cards n -> h ∈ observed muts.
Proof.
  intros Hm Hn Hh. unfold observed. apply list_elem_of_In, in_flat_map.
  exists m. split; [by apply list_elem_of_In|].
  apply in_flat_map. exists n. split; [by apply list_elem_of_In|].
  rewrite added_cards_subtree. by apply list_elem_of_In.
Qed.

(** X14: the observer's callback reaches every card inside the subtrees that
    were added, the added elements themselves included, and puts it in the
    set of processed cards; the resolver is called only for cards that were
    not in the set before; and going over the same nodes once more (a node
    reported twice, or found both by the first scan and by the observer)
    changes nothing and calls the resolver never. *)
Theorem observer_reaches_each_card_once (fuel : nat) (E : nat -> env)
    (muts : list (list node)) (w : world) :
  (LONG_RETRY_MAX < fuel)%nat ->
  exists w',
    observer fuel E muts w = Some w' /\
    processed w ⊆ processed w' /\
    (forall m n h, m ∈ muts -> n ∈ m -> h ∈ subtree_cards n ->
       h ∈ processed w') /\
    (exists l, log w' = log w ++ l /\
               forall p, p ∈ l -> p.1 ∉ processed w) /\
    (forall fuel' E',
       exists w'', observer fuel' E' muts w' = Some w'' /\
                   processed w'' = processed w' /\ log w'' = log w' /\
                   forall k, dom w'' k = dom w' k).
Proof.
  intros Hfuel. unfold observer.
  destruct (enhance_each_returns fuel E (observed muts) w Hfuel) as (w' & Hrun).
  destruct (enhance_each_facts _ _ _ _ _ Hrun) as (Hsub & Hall & l & Hlog & Hl).
  exists w'. split; [done|]. split; [done|]. split; [|split].
  - intros m n h Hm Hn Hh. apply Hall. by eapply observed_covers.
  - exists l. split; [done|]. intros p Hp. by destruct (Hl p Hp).
  - intros fuel' E'. by apply enhance_each_seen.
Qed.

Lemma observer_reaches_each_card_once_witness :
  let E := fun _ : nat => {| contains := fun _ => true; fetched := fun _ => VStr "3";
                             minChapters := fun _ => Fin 0 |} in
  let w := {| processed := ∅; dom := fun _ => fresh_card true (Some "/title/abc");
              log := [] |} in
  let muts := [[Element 1 false [Element 2 true []; TextNode; Element 3 true []]];
               [Element 2 true []]] in
  exists w', observer 7 E muts w = Some w' /\ 3%nat ∈ processed w'.
Proof.
  intros E w muts.
  destruct (observer_reaches_each_card_once 7 E muts w) as (w' & Hrun & _ & Hall & _);
    [unfold LONG_RETRY_MAX; lia|].
  exists w'. split; [exact Hrun|].
  apply (Hall [Element 1 false [Element 2 true []; TextNode; Element 3 true []]]
              (Element 1 false [Element 2 true []; TextNode; Element 3 true []])).
  - apply elem_of_cons. auto.
  - apply elem_of_cons. auto.
  - simpl. apply elem_of_cons. right. apply elem_of_cons. auto.
Defined.

(** *** More on the queue: submissions and completion *)

Section RunnerProgress.

Context {J : Type} (result : J -> outcome).

Implicit Types (s : state J) (e : entry J) (ts : list (task J))
  (evs : list (Runner.event J)).

(** X15: a call of [runJob] made while the limit is reached only queues its
    entry and waits.  Made below the limit, it starts a job at once, and
    that job is the oldest one queued: its own only if nothing was queued
    before; otherwise its own entry stays in the queue for another call to
    take. *)
Theorem submit_starts_oldest (evs : list (Runner.event J)) (j : J) :
  let s := run result evs in
  let n := length (submitted evs) in
  let mine := {| job := j; resolve := n |} in
  (CONCURRENCY_LIMIT <= active s ->
   step result s (Submit j)
   = {| queue := queue s ++ [mine]; active := active s;
        tasks := tasks s ++ [Waiting]; promises := promises s ++ [None] |}) /\
  (active s < CONCURRENCY_LIMIT ->
   exists e q,
     queue s ++ [mine] = e :: q /\
     resolve e = (n - length (queue s))%nat /\
     (queue s = [] -> e = mine) /\
     step result s (Submit j)
     = {| queue := q; active := active s + 1;
          tasks := tasks s ++ [Running e]; promises := promises s ++ [None] |}).
Proof.
  intros s n mine. pose proof (run_inv result evs) as Hinv. fold s in Hinv.
  pose proof (run_order result evs) as Hord. fold s in Hord.
  pose proof (inv_submitted _ _ _ Hinv) as Hn. subst n mine. rewrite Hn.
  assert (Hins : forall t : task J,
            <[length (tasks s) := t]> (tasks s ++ [Waiting]) = tasks s ++ [t]).
  { intros t. replace (length (tasks s)) with (length (tasks s) + 0)%nat at 1 by lia.
    by rewrite insert_app_r. }
  simpl. unfold enter. simpl. split.
  - intros Hfull. apply Z.leb_le in Hfull. rewrite Hfull.
    by rewrite Hins.
  - intros Hfree. apply Z.leb_gt in Hfree. rewrite Hfree.
    destruct (queue s) as [|e q] eqn:Hq; simpl.
    + eexists _, []. rewrite Hins. repeat split; try done.
      simpl. lia.
    + exists e, (q ++ [{| job := j; resolve := length (tasks s) |}]).
      rewrite Hins. simpl in Hord. injection Hord as He _.
      repeat split; try done.
Qed.

Lemma running_exists ts :
  running ts ≠ [] -> exists i e, ts !! i = Some (Running e).
Proof.
  induction ts as [|t ts IH]; [done|].
  destruct t as [|e| |]; simpl; intros Hne.
  - destruct (IH Hne) as (i & e & Hi). by exists (S i), e.
  - by exists 0%nat, e.
  - destruct (IH Hne) as (i & e & Hi). by exists (S i), e.
  - destruct (IH Hne) as (i & e & Hi). by exists (S i), e.
Qed.

Lemma waiting_exists ts :
  (0 < waiting ts)%nat -> exists i, ts !! i = Some Waiting.
Proof.
  induction ts as [|t ts IH]; [unfold waiting; simpl; lia|].
  destruct t as [|e| |]; intros Hpos.
  - by exists 0%nat.
  - unfold waiting in *. rewrite filter_cons_False in Hpos by (simpl; tauto).
    destruct (IH Hpos) as (i & Hi). by exists (S i).
  - unfold waiting in *. rewrite filter_cons_False in Hpos by (simpl; tauto).
    destruct (IH Hpos) as (i & Hi). by exists (S i).
  - unfold waiting in *. rewrite filter_cons_False in Hpos by (simpl; tauto).
    destruct (IH Hpos) as (i & Hi). by exists (S i).
Qed.

Lemma all_finished ts :
  waiting ts = 0%nat -> running ts = [] -> Crashed ∉ ts ->
  forall k, (k < length ts)%nat -> ts !! k = Some Finished.
Proof.
  induction ts as [|t ts IH]; intros Hw Hr Hc k Hk; [simpl in Hk; lia|].
  apply not_elem_of_cons in Hc as [Hne Hc].
  destruct t as [|e| |].
  - unfold waiting in Hw. rewrite filter_cons_True in Hw by done.
    simpl in Hw. lia.
  - discriminate Hr.
  - unfold waiting in Hw. rewrite filter_cons_False in Hw by (simpl; tauto).
    destruct k as [|k]; [done|]. simpl in *. apply IH; try done. lia.
  - done.
Qed.

(** The calls still to be served, the waiting ones counted twice. *)
Lemma drain_from m :
  forall evs,
    (2 * waiting (tasks (run result evs))
     + length (running (tasks (run result evs))) = m)%nat ->
    exists evs',
      submitted (evs ++ evs') = submitted evs /\
      waiting (tasks (run result (evs ++ evs'))) = 0%nat /\
      running (tasks (run result (evs ++ evs'))) = [].
Proof.
  induction m as [m IH] using lt_wf_ind. intros evs Hm.
  set (s := run result evs) in *.
  pose proof (run_inv result evs) as Hinv. fold s in Hinv.
  destruct (running (tasks s)) as [|e0 r] eqn:Hrun.
  - destruct (waiting (tasks s)) as [|w] eqn:Hwait.
    + exists []. rewrite app_nil_r. fold s. by rewrite Hrun, Hwait.
    + destruct (waiting_exists (tasks s)) as (i & Hi); [lia|].
      assert (Hfree : active s < CONCURRENCY_LIMIT).
      { rewrite (inv_active _ _ _ Hinv), Hrun. unfold CONCURRENCY_LIMIT. simpl. lia. }
      assert (Hq : (0 < length (queue s))%nat)
        by (rewrite (inv_queue _ _ _ Hinv); lia).
      destruct (queue s) as [|e q] eqn:Hqueue; simpl in Hq; [lia|].
      destruct (start_running (tasks s) i e Hi) as (Hperm & Hw' & _).
      destruct (IH (2 * w + 1)%nat) with (evs := evs ++ [Wake i])
        as (evs' & Hsub & Hdone); [simpl in Hm; lia | |].
      { rewrite run_snoc. fold s. simpl. rewrite Hi. unfold enter.
        apply Z.leb_gt in Hfree. rewrite Hfree, Hqueue. simpl.
        rewrite Hperm, Hrun. simpl. lia. }
      exists (Wake i :: evs'). rewrite <- app_assoc in Hsub, Hdone. cbn [app] in Hsub, Hdone.
      split; [|exact Hdone].
      rewrite Hsub, submitted_snoc. apply app_nil_r.
  - destruct (running_exists (tasks s)) as (i & e & Hi); [by rewrite Hrun|].
    destruct (stop_running (tasks s) i e Hi) as (Hperm & Hw' & _).
    destruct (IH (m - 1)%nat) with (evs := evs ++ [Settle i])
      as (evs' & Hsub & Hdone); [simpl in Hm; lia | |].
    { rewrite run_snoc. fold s. simpl. rewrite Hi. simpl. rewrite Hw'.
      apply Permutation_length in Hperm. rewrite Hrun in Hperm. simpl in *. lia. }
    exists (Settle i :: evs'). rewrite <- app_assoc in Hsub, Hdone. cbn [app] in Hsub, Hdone.
    split; [|exact Hdone].
    rewrite Hsub, submitted_snoc. apply app_nil_r.
Qed.

(** X16: the queue cannot get stuck.  From whatever state a sequence of
    events has led to, timers firing and jobs settling can bring every call
    to its end without a further submission; then nothing is queued or
    executing, [active] is back to 0, and the promise of every call holds
    the outcome of the job that this call submitted. *)
Theorem queue_can_drain (evs : list (Runner.event J)) :
  exists evs',
    let s := run result (evs ++ evs') in
    submitted (evs ++ evs') = submitted evs /\
    queue s = [] /\
    active s = 0 /\
    (forall k, (k < length (submitted evs))%nat ->
       tasks s !! k = Some Finished /\
       exists j, submitted evs !! k = Some j /\
                 promises s !! k = Some (Some (settlement (result j)))).
Proof.
  destruct (drain_from _ evs eq_refl) as (evs' & Hsub & Hw & Hr).
  exists evs'. intros s. fold s in Hw, Hr.
  pose proof (run_inv result (evs ++ evs')) as Hinv. fold s in Hinv.
  assert (Hq : queue s = []).
  { apply length_zero_iff_nil. by rewrite (inv_queue _ _ _ Hinv). }
  split; [exact Hsub|]. split; [exact Hq|]. split.
  { by rewrite (inv_active _ _ _ Hinv), Hr. }
  intros k Hk. rewrite <- Hsub in Hk.
  split.
  { apply all_finished; try done; [exact (inv_nocrash _ _ _ Hinv)|].
    by rewrite <- (inv_submitted _ _ _ Hinv). }
  assert (Hkp : (k < length (promises s))%nat).
  { by rewrite (inv_promises _ _ _ Hinv), <- (inv_submitted _ _ _ Hinv). }
  destruct (lookup_lt_is_Some_2 _ _ Hkp) as [[x|] Hx].
  - destruct (inv_settled _ _ _ Hinv k x Hx) as (j & Hj & ->).
    exists j. rewrite <- Hsub. done.
  - apply (run_pending_inflight result) in Hx. fold s in Hx.
    unfold inflight in Hx. rewrite Hq, Hr in Hx. by apply elem_of_nil in Hx.
Qed.

End RunnerProgress.

Lemma failing_network_session_witness :
  exists c',
    tryFillBadge 7
      {| contains := fun _ => true;
         fetched := fun k => fst (fetchLatestChapter (fun _ => OnTimeout));
         minChapters := fun _ => Fin 5 |}
      (fresh_card true (Some "/title/abc")) "abc" 0
    = Some (c', retry_trace "abc" 0 LONG_RETRY_MAX) /\
    badge c' = Some "?".
Proof.
  destruct (failing_network_session 7 (fun _ _ => OnTimeout) (fun _ => true)
              (fun _ => Fin 5) (fresh_card true (Some "/title/abc")) "abc")
    as (c' & Hrun & Hb & _).
  - unfold LONG_RETRY_MAX. lia.
  - reflexivity.
  - intros k a. reflexivity.
  - exists c'. split; [exact Hrun | exact Hb].
Defined.
